(** * vivarium: the session manager (src/service/session-manager.ts)

    A shallow embedding of [SessionManager] and of the JavaScript event loop
    it runs on, and the properties of the session lifecycle proved about it.

    - Synchronous code is written in a state monad [Sync] over a [World]:
      the fields of the manager, the store of [Session] objects, and the
      record of what the program did to the outside (environment calls,
      console lines, interval timers, clock readings).
    - [async] functions are trees of type [Async]: synchronous segments
      separated by the points where the function gives control back to the
      event loop ([await]).  [run] executes one call without interruption;
      [exec] interleaves a pool of calls under an explicit schedule.
    - The Pyodide environment (python-interpreter.ts) is external: its
      [init], [terminate] and [cleanup] are calls that may succeed or fail,
      as the oracle [settles] of the world says; the clock is the oracle
      [clock], read by [Date_now]. *)

From stdpp Require Import base decidable option list strings numbers pretty.
From Stdlib Require Import ZArith QArith_base Lia.

#[local] Open Scope string_scope.
#[local] Open Scope Z_scope.
#[local] Open Scope list_scope.

(** ** JavaScript's [Map<string, V>]: keyed, iterated in insertion order *)

Module JsMap.
Section Ops.
Context {V : Type}.

Fixpoint get (k : string) (m : list (string * V)) : option V :=
  match m with
  | [] => None
  | kv :: m' => if decide (kv.1 = k) then Some kv.2 else get k m'
  end.

Definition has (k : string) (m : list (string * V)) : bool :=
  bool_decide (is_Some (get k m)).

(** [set] keeps the position of a key that is already there and appends
    a new key at the end. *)
Definition set (k : string) (v : V) (m : list (string * V)) : list (string * V) :=
  if has k m
  then (λ kv, if decide (kv.1 = k) then (k, v) else kv) <$> m
  else m ++ [(k, v)].

Definition delete (k : string) (m : list (string * V)) : list (string * V) :=
  filter (λ kv, kv.1 ≠ k) m.

Definition keys (m : list (string * V)) : list string := fst <$> m.
Definition size (m : list (string * V)) : nat := length m.
End Ops.
End JsMap.

(** ** Data model *)

Definition loc := nat.    (* a reference to a Session object *)
Definition Env := nat.    (* the identity of a PyodidePythonEnvironment instance *)
Definition Timer := nat.  (* the handle returned by setInterval *)

(** interface Session *)
Record Session := mkSession {
  id : string;
  environment : Env;
  createdAt : Z;
  lastAccessedAt : Z;
}.

(** An element of the array that getSessionsInfo returns. *)
Module Info.
Record t := mk {
  id : string;
  createdAt : Z;
  lastAccessedAt : Z;
  ageMinutes : Q;
  idleMinutes : Q;
}.
End Info.

(** The asynchronous methods of the environment that the manager calls. *)
Inductive EnvOp := Init | Terminate | Cleanup.

Inductive Error :=
| AlreadyExists (sessionId : string)   (* new Error(`Session with id ... already exists`) *)
| EnvFailure (e : Env) (op : EnvOp).    (* whatever a rejected environment call threw *)

Inductive Event :=
| EvNew (e : Env)                          (* new PyodidePythonEnvironment() *)
| EvCall (e : Env) (op : EnvOp)            (* the method is invoked *)
| EvSettle (e : Env) (op : EnvOp) (ok : bool).  (* its promise fulfils (true) or rejects *)

Inductive ConsoleLine :=
| Log (msg : string)
| ErrorLine (msg : string) (err : Error).

#[global] Instance EnvOp_eq_dec : EqDecision EnvOp.
Proof. solve_decision. Defined.
#[global] Instance Error_eq_dec : EqDecision Error.
Proof. solve_decision. Defined.
#[global] Instance Event_eq_dec : EqDecision Event.
Proof. solve_decision. Defined.

(** The state of the program and of what it touches.  The first three
    fields are the fields of the (single) [SessionManager]; [sessions] holds
    references, the objects themselves live in [heap]. *)
Record World := mkWorld {
  sessions : list (string * loc);     (* private sessions: Map<string, Session> *)
  sessionTimeout : Z;                 (* private readonly sessionTimeout, in ms *)
  cleanupInterval : option Timer;     (* private cleanupInterval: Timeout | null *)
  heap : loc → Session;               (* the Session objects allocated so far *)
  allocated : nat;                    (* [heap] is meaningful below this bound *)
  environments : nat;                 (* environments constructed so far *)
  timers : list Timer;                (* interval timers that are armed *)
  timer_count : nat;                  (* handles given out so far *)
  ticks : nat;                        (* clock readings taken so far *)
  clock : nat → Z;                    (* the n-th reading of Date.now() *)
  settles : list Event → Env → EnvOp → bool;  (* outcome of an environment call *)
  trace : list Event;
  console : list ConsoleLine;
}.

Definition cleanupIntervalMs : Z := 60 * 1000.

Definition with_sessions (f : list (string * loc) → list (string * loc)) (w : World) : World :=
  mkWorld (f (sessions w)) (sessionTimeout w) (cleanupInterval w) (heap w) (allocated w)
    (environments w) (timers w) (timer_count w) (ticks w) (clock w) (settles w)
    (trace w) (console w).

Definition with_heap (h : loc → Session) (n : nat) (w : World) : World :=
  mkWorld (sessions w) (sessionTimeout w) (cleanupInterval w) h n
    (environments w) (timers w) (timer_count w) (ticks w) (clock w) (settles w)
    (trace w) (console w).

Definition with_timers (c : option Timer) (ts : list Timer) (n : nat) (w : World) : World :=
  mkWorld (sessions w) (sessionTimeout w) c (heap w) (allocated w)
    (environments w) ts n (ticks w) (clock w) (settles w) (trace w) (console w).

Definition with_ticks (n : nat) (w : World) : World :=
  mkWorld (sessions w) (sessionTimeout w) (cleanupInterval w) (heap w) (allocated w)
    (environments w) (timers w) (timer_count w) n (clock w) (settles w)
    (trace w) (console w).

Definition emit (ev : Event) (w : World) : World :=
  mkWorld (sessions w) (sessionTimeout w) (cleanupInterval w) (heap w) (allocated w)
    (environments w) (timers w) (timer_count w) (ticks w) (clock w) (settles w)
    (trace w ++ [ev]) (console w).

Definition print (line : ConsoleLine) (w : World) : World :=
  mkWorld (sessions w) (sessionTimeout w) (cleanupInterval w) (heap w) (allocated w)
    (environments w) (timers w) (timer_count w) (ticks w) (clock w) (settles w)
    (trace w) (console w ++ [line]).

Definition store (l : loc) (s : Session) (h : loc → Session) : loc → Session :=
  λ l', if decide (l' = l) then s else h l'.

(** ** Synchronous code: a state monad over the world *)

Definition Sync (X : Type) : Type := World → X * World.

#[global] Instance Sync_ret : MRet Sync := λ X x w, (x, w).
#[global] Instance Sync_bind : MBind Sync :=
  λ X Y f m w, let '(x, w') := m w in f x w'.

Definition Date_now : Sync Z :=
  λ w, (clock w (ticks w), with_ticks (S (ticks w)) w).

Definition console_log (msg : string) : Sync unit := λ w, (tt, print (Log msg) w).
Definition console_error (msg : string) (err : Error) : Sync unit :=
  λ w, (tt, print (ErrorLine msg err) w).

Definition sessions_get (sessionId : string) : Sync (option loc) :=
  λ w, (JsMap.get sessionId (sessions w), w).
Definition sessions_has (sessionId : string) : Sync bool :=
  λ w, (JsMap.has sessionId (sessions w), w).
Definition sessions_set (sessionId : string) (session : loc) : Sync unit :=
  λ w, (tt, with_sessions (JsMap.set sessionId session) w).
Definition sessions_delete (sessionId : string) : Sync unit :=
  λ w, (tt, with_sessions (JsMap.delete sessionId) w).
Definition sessions_entries : Sync (list (string * loc)) := λ w, (sessions w, w).
Definition sessions_keys : Sync (list string) := λ w, (JsMap.keys (sessions w), w).

Definition this_sessionTimeout : Sync Z := λ w, (sessionTimeout w, w).

(** Reading and writing the fields of a Session object through a reference. *)
Definition deref (session : loc) : Sync Session := λ w, (heap w session, w).
Definition the_heap : Sync (loc → Session) := λ w, (heap w, w).
Definition set_lastAccessedAt (session : loc) (t : Z) : Sync unit :=
  λ w, let s := heap w session in
       (tt, with_heap (store session
              (mkSession (id s) (environment s) (createdAt s) t) (heap w))
              (allocated w) w).

(** An object literal [{ id, environment, createdAt, lastAccessedAt }]. *)
Definition new_Session (s : Session) : Sync loc :=
  λ w, (allocated w, with_heap (store (allocated w) s (heap w)) (S (allocated w)) w).

(** [new PyodidePythonEnvironment()] *)
Definition new_PyodidePythonEnvironment : Sync Env :=
  λ w, let e := environments w in
       (e, mkWorld (sessions w) (sessionTimeout w) (cleanupInterval w) (heap w)
             (allocated w) (S e) (timers w) (timer_count w) (ticks w) (clock w)
             (settles w) (trace w ++ [EvNew e]) (console w)).

(** *** The synchronous methods of SessionManager *)

(** startCleanupInterval: [this.cleanupInterval = setInterval(..., cleanupIntervalMs)].
    The callback is the sweep; [exec] below runs it when an armed timer fires. *)
Definition startCleanupInterval : Sync unit :=
  λ w, let h := timer_count w in
       (tt, with_timers (Some h) (timers w ++ [h]) (S h) w).

(** stopCleanupInterval *)
Definition stopCleanupInterval : Sync unit :=
  λ w, match cleanupInterval w with
       | Some h => (tt, with_timers None (filter (λ h', h' ≠ h) (timers w)) (timer_count w) w)
       | None => (tt, w)
       end.

(** constructor(sessionTimeoutMinutes = 10), on a runtime in which nothing
    has happened yet. *)
Definition no_objects : loc → Session := λ _, mkSession "" 0%nat 0 0.

Definition boot (clk : nat → Z) (out : list Event → Env → EnvOp → bool) : World :=
  mkWorld [] 0 None no_objects 0 0 [] 0 0 clk out [] [].

Definition new_SessionManager (sessionTimeoutMinutes : Z) : Sync unit :=
  λ w, startCleanupInterval
         (mkWorld [] (sessionTimeoutMinutes * 60 * 1000) None (heap w) (allocated w)
            (environments w) (timers w) (timer_count w) (ticks w) (clock w)
            (settles w) (trace w) (console w)).

(** getSession *)
Definition getSession (sessionId : string) : Sync (option loc) :=
  session ← sessions_get sessionId;
  match session with
  | Some l =>
      now ← Date_now;
      _ ← set_lastAccessedAt l now;
      mret (Some l)
  | None => mret None
  end.

(** isSessionExpired *)
Definition isSessionExpired (session : loc) : Sync bool :=
  now ← Date_now;
  s ← deref session;
  let timeSinceLastAccess := now - lastAccessedAt s in
  timeout ← this_sessionTimeout;
  mret (timeSinceLastAccess >=? timeout).

(** getActiveSessionCount *)
Definition getActiveSessionCount : Sync nat := λ w, (JsMap.size (sessions w), w).

(** getSessionsInfo.  The two durations in minutes are quotients of
    integers; they are kept as exact fractions, of which the JavaScript
    number is the nearest double. *)
Definition getSessionsInfo : Sync (list Info.t) :=
  now ← Date_now;
  entries ← sessions_entries;
  objects ← the_heap;
  mret ((λ kv : string * loc,
           let session : Session := objects kv.2 in
           Info.mk (id session) (createdAt session) (lastAccessedAt session)
             (Qmake (now - createdAt session) (60 * 1000))
             (Qmake (now - lastAccessedAt session) (60 * 1000))) <$> entries).

(** ** Asynchronous code

    An [async] function is a tree: [Atomic] runs a piece of synchronous
    code, [AwaitEnv] invokes a method of an environment and suspends until
    its promise settles, [Yield] is an [await] on a promise of the program
    itself, after which the function resumes in a later turn of the event
    loop.  [Reject] is a thrown error (a rejected promise). *)

Inductive Async (A : Type) : Type :=
| Resolve (a : A)
| Reject (err : Error)
| Atomic {X : Type} (m : Sync X) (k : X → Async A)
| AwaitEnv (e : Env) (op : EnvOp) (k : bool → Async A)
| Yield (k : Async A).

Arguments Resolve {A} a.
Arguments Reject {A} err.
Arguments Atomic {A X} m k.
Arguments AwaitEnv {A} e op k.
Arguments Yield {A} k.

Fixpoint Async_then {A B : Type} (f : A → Async B) (p : Async A) : Async B :=
  match p with
  | Resolve a => f a
  | Reject err => Reject err
  | Atomic m k => Atomic m (λ x, Async_then f (k x))
  | AwaitEnv e op k => AwaitEnv e op (λ ok, Async_then f (k ok))
  | Yield k => Yield (Async_then f k)
  end.

#[global] Instance Async_ret : MRet Async := λ A a, Resolve a.
#[global] Instance Async_bind : MBind Async := λ A B f p, Async_then f p.
#[global] Instance Async_fmap : FMap Async := λ A B f p, Async_then (λ a, Resolve (f a)) p.

(** A synchronous call inside an async function. *)
Definition lift {X : Type} (m : Sync X) : Async X := Atomic m Resolve.

(** [await environment.op()]: a rejection is thrown at the await. *)
Definition await_env (e : Env) (op : EnvOp) : Async unit :=
  AwaitEnv e op (λ ok, if ok then Resolve tt else Reject (EnvFailure e op)).

(** [await p] for a promise [p] of an async function of the program: the
    callee runs, and its outcome reaches the caller in a later turn. *)
Fixpoint await {A : Type} (p : Async A) : Async A :=
  match p with
  | Resolve a => Yield (Resolve a)
  | Reject err => Yield (Reject err)
  | Atomic m k => Atomic m (λ x, await (k x))
  | AwaitEnv e op k => AwaitEnv e op (λ ok, await (k ok))
  | Yield k => Yield (await k)
  end.

(** [try { p } catch (error) { handler error }] *)
Fixpoint try_catch {A : Type} (p : Async A) (handler : Error → Async A) : Async A :=
  match p with
  | Resolve a => Resolve a
  | Reject err => handler err
  | Atomic m k => Atomic m (λ x, try_catch (k x) handler)
  | AwaitEnv e op k => AwaitEnv e op (λ ok, try_catch (k ok) handler)
  | Yield k => Yield (try_catch k handler)
  end.

(** [for (const x of xs) { body x }] *)
Fixpoint for_of {X : Type} (xs : list X) (body : X → Async unit) : Async unit :=
  match xs with
  | [] => Resolve tt
  | x :: rest => _ ← body x; for_of rest body
  end.

(** *** The asynchronous methods of SessionManager *)

(** createSession *)
Definition createSession (sessionId : string) : Async loc :=
  exists_ ← lift (sessions_has sessionId);
  if (exists_ : bool) then Reject (AlreadyExists sessionId) else
  _ ← lift (console_log ("Creating new session: " +:+ sessionId));
  environment ← lift new_PyodidePythonEnvironment;
  _ ← await_env environment Init;
  createdAt ← lift Date_now;
  lastAccessedAt ← lift Date_now;
  session ← lift (new_Session (mkSession sessionId environment createdAt lastAccessedAt));
  _ ← lift (sessions_set sessionId session);
  _ ← lift (console_log ("Session created: " +:+ sessionId));
  Resolve session.

(** getOrCreateSession *)
Definition getOrCreateSession (sessionId : string) : Async loc :=
  existingSession ← lift (getSession sessionId);
  match existingSession with
  | Some session => Resolve session
  | None => await (createSession sessionId)
  end.

(** removeSession *)
Definition removeSession (sessionId : string) : Async bool :=
  session ← lift (sessions_get sessionId);
  match session with
  | None => Resolve false
  | Some session =>
      _ ← lift (console_log ("Removing session: " +:+ sessionId));
      _ ← try_catch
            (s ← lift (deref session);
             _ ← await_env (environment s) Terminate;
             s ← lift (deref session);
             await_env (environment s) Cleanup)
            (λ error,
               lift (console_error ("Error cleaning up session " +:+ sessionId +:+ ":") error));
      _ ← lift (sessions_delete sessionId);
      _ ← lift (console_log ("Session removed: " +:+ sessionId));
      Resolve true
  end.

(** The first loop of cleanupExpiredSessions: the ids of the entries that
    [isSessionExpired] reports, in the order of the map. *)
Fixpoint find_expired (entries : list (string * loc)) (expiredSessions : list string)
  : Sync (list string) :=
  match entries with
  | [] => mret expiredSessions
  | (sessionId, session) :: rest =>
      expired ← isSessionExpired session;
      find_expired rest
        (if (expired : bool) then expiredSessions ++ [sessionId] else expiredSessions)
  end.

(** cleanupExpiredSessions *)
Definition cleanupExpiredSessions : Async nat :=
  now ← lift Date_now;
  entries ← lift sessions_entries;
  expiredSessions ← lift (find_expired entries []);
  _ ← (if bool_decide (0 < length expiredSessions)%nat
       then
         _ ← lift (console_log ("Cleaning up " +:+ pretty (length expiredSessions)
                                 +:+ " expired session(s)"));
         for_of expiredSessions (λ sessionId,
           _ ← await (removeSession sessionId); Resolve tt)
       else Resolve tt);
  Resolve (length expiredSessions).

(** manualCleanup *)
Definition manualCleanup : Async nat := await cleanupExpiredSessions.

(** shutdown *)
Definition shutdown : Async unit :=
  _ ← lift (console_log "Shutting down SessionManager...");
  _ ← lift stopCleanupInterval;
  sessionIds ← lift sessions_keys;
  _ ← for_of sessionIds (λ sessionId,
        _ ← await (removeSession sessionId); Resolve tt);
  lift (console_log "SessionManager shutdown complete").

(** ** Running asynchronous code *)

Inductive Result (A : Type) : Type :=
| Fulfilled (a : A)
| Rejected (err : Error).

Arguments Fulfilled {A} a.
Arguments Rejected {A} err.

(** What the environment answers to a call whose invocation is the last
    event of the trace. *)
Definition settle (e : Env) (op : EnvOp) (w : World) : bool * World :=
  let ok := settles w (trace w) e op in (ok, emit (EvSettle e op ok) w).

(** One call, from invocation to its outcome, with nothing else running in
    between. *)
Fixpoint run {A : Type} (p : Async A) (w : World) : Result A * World :=
  match p with
  | Resolve a => (Fulfilled a, w)
  | Reject err => (Rejected err, w)
  | Atomic m k => let '(x, w') := m w in run (k x) w'
  | AwaitEnv e op k =>
      let '(ok, w') := settle e op (emit (EvCall e op) w) in run (k ok) w'
  | Yield k => run k w
  end.

(** A call in progress. *)
Inductive Task (A : Type) : Type :=
| Ready (p : Async A)                              (* resumes at the next turn *)
| Waiting (e : Env) (op : EnvOp) (k : bool → Async A)  (* an environment call is pending *)
| Done (r : Result A).

Arguments Ready {A} p.
Arguments Waiting {A} e op k.
Arguments Done {A} r.

(** Run synchronously up to the next await. *)
Fixpoint advance {A : Type} (p : Async A) (w : World) : Task A * World :=
  match p with
  | Resolve a => (Done (Fulfilled a), w)
  | Reject err => (Done (Rejected err), w)
  | Atomic m k => let '(x, w') := m w in advance (k x) w'
  | AwaitEnv e op k => (Waiting e op k, emit (EvCall e op) w)
  | Yield k => (Ready k, w)
  end.

(** One turn of the event loop given to a suspended task. *)
Definition resume {A : Type} (t : Task A) (w : World) : Task A * World :=
  match t with
  | Ready p => advance p w
  | Waiting e op k => let '(ok, w') := settle e op w in advance (k ok) w'
  | Done r => (Done r, w)
  end.

(** [n] turns in a row given to one task, nothing else running. *)
Fixpoint turns {A : Type} (n : nat) (task : Task A) (w : World) : Task A * World :=
  match n with
  | O => (task, w)
  | S n' => let '(task', w') := resume task w in turns n' task' w'
  end.

(** *** The event loop: requests, timer ticks and turns, in any order *)

Inductive Value :=
| VSession (session : loc)
| VNull
| VBool (b : bool)
| VNumber (n : nat)
| VInfo (infos : list Info.t)
| VUndefined.

Inductive Request :=
| CallCreateSession (sessionId : string)
| CallGetSession (sessionId : string)
| CallGetOrCreateSession (sessionId : string)
| CallRemoveSession (sessionId : string)
| CallManualCleanup
| CallShutdown
| CallStopCleanupInterval
| CallGetActiveSessionCount
| CallGetSessionsInfo.

Definition serve (r : Request) : Async Value :=
  match r with
  | CallCreateSession sessionId => VSession <$> createSession sessionId
  | CallGetSession sessionId =>
      from_option VSession VNull <$> lift (getSession sessionId)
  | CallGetOrCreateSession sessionId => VSession <$> getOrCreateSession sessionId
  | CallRemoveSession sessionId => VBool <$> removeSession sessionId
  | CallManualCleanup => VNumber <$> manualCleanup
  | CallShutdown => (λ _, VUndefined) <$> shutdown
  | CallStopCleanupInterval => (λ _, VUndefined) <$> lift stopCleanupInterval
  | CallGetActiveSessionCount => VNumber <$> lift getActiveSessionCount
  | CallGetSessionsInfo => VInfo <$> lift getSessionsInfo
  end.

Inductive Action :=
| Incoming (r : Request)   (* a caller invokes a method of the manager *)
| Fire (h : Timer)         (* the interval timer ticks *)
| Turn (i : nat).          (* the event loop resumes the i-th call *)

Definition spawn (p : Async Value) (pool : list (Task Value)) (w : World)
  : list (Task Value) * World :=
  let '(t, w') := advance p w in (pool ++ [t], w').

Definition act (a : Action) (pool : list (Task Value)) (w : World)
  : list (Task Value) * World :=
  match a with
  | Incoming r => spawn (serve r) pool w
  | Fire h =>
      if bool_decide (h ∈ timers w)
      then spawn (VNumber <$> cleanupExpiredSessions) pool w
      else (pool, w)
  | Turn i =>
      match pool !! i with
      | Some t => let '(t', w') := resume t w in (<[i:=t']> pool, w')
      | None => (pool, w)
      end
  end.

Fixpoint exec (schedule : list Action) (pool : list (Task Value)) (w : World)
  : list (Task Value) * World :=
  match schedule with
  | [] => (pool, w)
  | a :: rest => let '(pool', w') := act a pool w in exec rest pool' w'
  end.

(** ** Reasoning about calls that are interleaved with others

    [I t] is a family of invariants of the world, one for each view [t] an
    observer may have of it (for instance: the state in which the observer
    last saw some Session object).  [wp I p Q t w]: started in [w], of which
    [I t] holds, the call [p] re-establishes [I t] each time it gives control
    back, and ends in a state and with a result that satisfy [Q]; what runs
    while [p] is suspended may change the world, and [p] resumes in any world
    [w'] and under any view [t'] of which [I t' w'] holds. *)

Fixpoint wp {T A : Type} (I : T → World → Prop) (p : Async A)
    (Q : T → Result A → World → Prop) (t : T) (w : World) : Prop :=
  match p with
  | Resolve a => Q t (Fulfilled a) w
  | Reject err => Q t (Rejected err) w
  | Atomic m k => wp I (k (m w).1) Q t (m w).2
  | AwaitEnv e op k =>
      I t (emit (EvCall e op) w) ∧
      ∀ t' w' ok, I t' w' → wp I (k ok) Q t' (emit (EvSettle e op ok) w')
  | Yield k => I t w ∧ ∀ t' w', I t' w' → wp I k Q t' w'
  end.

Definition task_wp {T A : Type} (I : T → World → Prop)
    (Q : T → Result A → World → Prop) (task : Task A) : Prop :=
  match task with
  | Ready p => ∀ t w, I t w → wp I p Q t w
  | Waiting e op k => ∀ t w ok, I t w → wp I (k ok) Q t (emit (EvSettle e op ok) w)
  | Done _ => True
  end.

(** [p] can run from any state, interleaved with anything that keeps the
    invariants, and keeps them itself. *)
Definition keeps {T A : Type} (I : T → World → Prop) (p : Async A) : Prop :=
  ∀ t w, I t w → wp I p (λ t' _ w', I t' w') t w.

(** A pool of calls in progress that all keep the invariants. *)
Definition orderly {T : Type} (I : T → World → Prop) (pool : list (Task Value)) : Prop :=
  Forall (task_wp I (λ t' _ w', I t' w')) pool.

(** ** Invariants of the manager *)

Record wf (w : World) : Prop := mk_wf {
  wf_keys : NoDup (JsMap.keys (sessions w));
  wf_refs : ∀ k l, JsMap.get k (sessions w) = Some l → (l < allocated w)%nat;
  wf_timers : timers w = match cleanupInterval w with Some h => [h] | None => [] end;
}.

Definition clock_monotone (clk : nat → Z) : Prop :=
  ∀ n m, (n ≤ m)%nat → clk n ≤ clk m.

(** Every Session object was stamped with readings the clock has already
    given, the creation stamp first. *)
Definition timestamps_ok (w : World) : Prop :=
  ∀ l, (l < allocated w)%nat →
    createdAt (heap w l) ≤ lastAccessedAt (heap w l) ∧
    ∀ n, (ticks w ≤ n)%nat → lastAccessedAt (heap w l) ≤ clock w n.

(** [s] is a later state of the object that was [s0]: only [lastAccessedAt]
    may differ, and it has not gone back. *)
Definition follows (s0 s : Session) : Prop :=
  id s = id s0 ∧ environment s = environment s0 ∧ createdAt s = createdAt s0 ∧
  lastAccessedAt s0 ≤ lastAccessedAt s.

Definition tracked (o : option (loc * Session)) (w : World) : Prop :=
  match o with
  | None => True
  | Some (l, s0) => (l < allocated w)%nat ∧ follows s0 (heap w l)
  end.

Definition inv (o : option (loc * Session)) (w : World) : Prop :=
  wf w ∧ clock_monotone (clock w) ∧ timestamps_ok w ∧ tracked o w.

(** ** Vocabulary of the statements *)

(** The ids that one pass of the sweep selects: the entries are judged in
    the order of the map, the j-th against its own clock reading [t + j]. *)
Fixpoint expired_ids (w : World) (t : nat) (entries : list (string * loc)) : list string :=
  match entries with
  | [] => []
  | (sessionId, session) :: rest =>
      (if clock w t - lastAccessedAt (heap w session) >=? sessionTimeout w
       then [sessionId] else [])
      ++ expired_ids w (S t) rest
  end.

(** The events of tearing down one environment: [terminate], and [cleanup]
    when [terminate] was fulfilled. *)
Definition teardown_events (e : Env) (evs : list Event) : Prop :=
  evs = [EvCall e Terminate; EvSettle e Terminate false] ∨
  ∃ ok, evs = [EvCall e Terminate; EvSettle e Terminate true;
               EvCall e Cleanup; EvSettle e Cleanup ok].

Definition calls (op : EnvOp) (evs : list Event) : list Env :=
  omap (λ ev, match ev with
              | EvCall e op' => if decide (op' = op) then Some e else None
              | _ => None
              end) evs.

(** The manager of index.ts: [new SessionManager(1)] on a fresh runtime. *)
Definition sessionManager (clk : nat → Z) (out : list Event → Env → EnvOp → bool) : World :=
  (new_SessionManager 1 (boot clk out)).2.

(** The world after sessions were removed: only the registry, the trace and
    the console differ from [w]. *)
Definition removed (w : World) (ss : list (string * loc)) (evs : list Event)
    (lines : list ConsoleLine) : World :=
  mkWorld ss (sessionTimeout w) (cleanupInterval w) (heap w) (allocated w)
    (environments w) (timers w) (timer_count w) (ticks w) (clock w) (settles w)
    (trace w ++ evs) (console w ++ lines).

(** [removeSession] awaited in a loop, as the sweep and shutdown do. *)
Definition remove_each (sessionIds : list string) : Async unit :=
  for_of sessionIds (λ sessionId, _ ← await (removeSession sessionId); Resolve tt).

(** Whatever the rest of the program does to the world between the turns
    of [task], the task ends within [n] more turns, with a result and in a
    state that satisfy [Q]. *)
Fixpoint ends_within {A : Type} (n : nat) (Q : Result A → World → Prop)
    (task : Task A) : Prop :=
  match n with
  | O => False
  | S n' =>
      ∀ w, match resume task w with
           | (Done r, w') => Q r w'
           | (task', _) => ends_within n' Q task'
           end
  end.

(** ** Scenarios

    Concrete clocks, environments and states of the manager of index.ts,
    on which the statements below are exercised. *)

(** A clock that advances by [step] milliseconds from one reading to the
    next. *)
Definition ticking (step : Z) : nat → Z := λ n, step * Z.of_nat n.

Definition all_well : list Event → Env → EnvOp → bool := λ _ _ _, true.

Definition failing (bad : EnvOp) : list Event → Env → EnvOp → bool :=
  λ _ _ op, bool_decide (op ≠ bad).

(** The manager after [getOrCreateSession("s1")] has completed. *)
Definition one_session (clk : nat → Z) (out : list Event → Env → EnvOp → bool) : World :=
  (run (getOrCreateSession "s1") (sessionManager clk out)).2.

(** The manager after [getOrCreateSession("s1")] and then
    [getOrCreateSession("s2")] have completed. *)
Definition two_sessions (clk : nat → Z) (out : list Event → Env → EnvOp → bool) : World :=
  (run (getOrCreateSession "s2") (one_session clk out)).2.

(** Two callers ask for the same new session before the [init] of either
    has settled; then the [init] of the first settles and the first call
    runs to its end, and then the second. *)
Definition two_callers : list Action :=
  [Incoming (CallGetOrCreateSession "new"); Incoming (CallGetOrCreateSession "new");
   Turn 0; Turn 0; Turn 1; Turn 1].


(** ** Further invariants of the manager, and the routes of index.ts *)

(** Each Session object sits in the registry under its own id. *)
Definition ids_ok (w : World) : Prop :=
  ∀ k l, JsMap.get k (sessions w) = Some l → id (heap w l) = k.

(** The environments constructed so far, in the order of construction. *)
Definition constructed (evs : list Event) : list Env :=
  omap (λ ev, match ev with EvNew e => Some e | _ => None end) evs.

(** Every environment constructed has had its [init] called, once and in
    the order of construction. *)
Definition initialised_once (w : World) : Prop :=
  constructed (trace w) = seq 0 (environments w) ∧
  calls Init (trace w) = seq 0 (environments w).

(** An event other than the construction and the [init] of an
    environment. *)
Definition later_event (ev : Event) : Prop :=
  match ev with
  | EvNew _ => False
  | EvCall _ op => op ≠ Init
  | EvSettle _ _ _ => True
  end.

(** What holds of the manager whatever the clock does; the view is whether
    the observer has seen the timer stopped, and the timeout it was
    constructed with. *)
Definition stable (view : bool * Z) (w : World) : Prop :=
  wf w ∧ ids_ok w ∧ initialised_once w ∧
  (view.1 = true → cleanupInterval w = None) ∧ sessionTimeout w = view.2.

(** Two families of invariants side by side. *)
Definition both {T1 T2 : Type} (I1 : T1 → World → Prop) (I2 : T2 → World → Prop)
  : T1 * T2 → World → Prop :=
  λ t w, I1 t.1 w ∧ I2 t.2 w.

(** Started in [w], the call [p] suspends at most [n] times, and ends with
    a result and in a state that satisfy [Q], in whatever worlds it
    resumes. *)
Fixpoint wp_within {A : Type} (p : Async A) (Q : Result A → World → Prop)
    (n : nat) (w : World) : Prop :=
  match p with
  | Resolve a => Q (Fulfilled a) w
  | Reject err => Q (Rejected err) w
  | Atomic m k => wp_within (k (m w).1) Q n (m w).2
  | AwaitEnv e op k =>
      match n with
      | O => False
      | S n' => ∀ w' ok, wp_within (k ok) Q n' (emit (EvSettle e op ok) w')
      end
  | Yield k =>
      match n with
      | O => False
      | S n' => ∀ w', wp_within k Q n' w'
      end
  end.

(** The call [p], invoked in [w], ends at once or within [n] more turns,
    whatever the rest of the program does to the world in between, with a
    result and in a state that satisfy [Q]. *)
Definition always_ends {A : Type} (n : nat) (Q : Result A → World → Prop)
    (p : Async A) (w : World) : Prop :=
  match advance p w with
  | (Done r, w') => Q r w'
  | (task, _) => ends_within n Q task
  end.

Definition fulfilled {A : Type} (r : Result A) : Prop :=
  match r with
  | Fulfilled _ => True
  | Rejected _ => False
  end.

(** The Session object at [l] exists and its environment is [e]. *)
Definition environment_kept (o : option (loc * Env)) (w : World) : Prop :=
  match o with
  | None => True
  | Some (l, e) => (l < allocated w)%nat ∧ environment (heap w l) = e
  end.

(** The console lines of one removal whose environment events were
    [evs]: the failure that ended the teardown, if any, is printed with
    console.error between the two lines of removeSession. *)
Definition failure_lines (sessionId : string) (evs : list Event) : list ConsoleLine :=
  match last evs with
  | Some (EvSettle e op false) =>
      [ErrorLine ("Error cleaning up session " +:+ sessionId +:+ ":") (EnvFailure e op)]
  | _ => []
  end.

Definition removal_lines (sessionId : string) (evs : list Event) : list ConsoleLine :=
  [Log ("Removing session: " +:+ sessionId)] ++ failure_lines sessionId evs ++
  [Log ("Session removed: " +:+ sessionId)].

(** A clock on which the first four readings (the creation of two
    sessions) show time 0 and the later ones two minutes more, a
    millisecond apart. *)
Definition two_minutes_later : nat → Z :=
  λ n, if bool_decide (n < 4)%nat then 0 else 120000 + Z.of_nat n.

(** *** index.ts

    The handler of POST /exec awaits getOrCreateSession and then the
    environment's runCode, which python-interpreter.ts defines.  It is
    modelled in its two halves: [exec_route], the async function up to the
    call of runCode (on which environment, with which arguments), and
    [exec_end], from the outcome of runCode to what the handler returns. *)

(** An element of [files] in the body of the request. *)
Record File := mkFile {
  filename : string;
  b64_data : string;
}.

(** A JavaScript value, as far as [||] can tell one from another: what is
    neither undefined, null nor a string is known by its truthiness. *)
Inductive JsValue :=
| JsUndefined
| JsNull
| JsString (s : string)
| JsOther (truthy : bool).

Definition truthy (v : JsValue) : bool :=
  match v with
  | JsUndefined | JsNull => false
  | JsString s => bool_decide (s ≠ "")
  | JsOther b => b
  end.

(** What the catch block receives: null or undefined, on which reading a
    property throws, or another value, with the value of its [message]
    property ([JsUndefined] when it has none). *)
Inductive Thrown :=
| ThrownNullish
| ThrownWith (message : JsValue).

(** The response of POST /exec: [{ success: true, result }] or
    [{ success: false, error: { type, message } }]. *)
Inductive Response (R : Type) : Type :=
| Success (result : R)
| Failure (type : string) (message : JsValue).

Arguments Success {R} result.
Arguments Failure {R} type message.

(** What the handler comes to: it returns a response, or it throws the
    TypeError of reading [message] of null or undefined. *)
Inductive Reply (R : Type) : Type :=
| Respond (response : Response R)
| TypeError.

Arguments Respond {R} response.
Arguments TypeError {R}.

(** [message || "Unknown error occurred"] *)
Definition or_default (message : JsValue) : JsValue :=
  if truthy message then message else JsString "Unknown error occurred".

(** The value behind an error of the manager: the Error object that
    createSession makes, or what a rejected environment call threw, which
    is the environment's business ([thrown]). *)
Definition thrown_value (thrown : Env → EnvOp → Thrown) (err : Error) : Thrown :=
  match err with
  | AlreadyExists sessionId =>
      ThrownWith (JsString ("Session with id " +:+ sessionId +:+ " already exists"))
  | EnvFailure e op => thrown e op
  end.

(** The catch block of the handler. *)
Definition catch_block {R : Type} (error : Thrown) : Reply R :=
  match error with
  | ThrownNullish => TypeError
  | ThrownWith message => Respond (Failure "execution" (or_default message))
  end.

(** A call [environment.runCode(code, files)] about to be awaited. *)
Record RunCode := mkRunCode {
  on_environment : Env;
  code_arg : string;
  files_arg : list File;
}.

(** The handler up to the await of runCode.  [files] is [None] when the
    body has no [files]; the query schema makes [sessionId] a string, which
    [!sessionId] rejects when it is empty. *)
Definition exec_route {R : Type} (thrown : Env → EnvOp → Thrown)
    (code : string) (files : option (list File)) (sessionId : string)
  : Async (Reply R + RunCode) :=
  let files := default [] files in
  if decide (sessionId = "")
  then Resolve (inl (Respond (Failure "validation"
                                (JsString "sessionId query parameter is required"))))
  else
    try_catch
      (session ← await (getOrCreateSession sessionId);
       s ← lift (deref session);
       let environment := environment s in
       Resolve (inr (mkRunCode environment code files)))
      (λ error, Resolve (inl (catch_block (thrown_value thrown error)))).

(** The handler from the outcome of runCode: its result, or what it
    threw. *)
Definition exec_end {R : Type} (outcome : R + Thrown) : Reply R :=
  match outcome with
  | inl result => Respond (Success result)
  | inr error => catch_block error
  end.

(** GET /health *)
Definition health : Sync (string * nat) :=
  activeSessions ← getActiveSessionCount;
  mret ("healthy", activeSessions).

(** GET /sessions *)
Definition sessions_route : Sync (list Info.t) := getSessionsInfo.

(** * Proofs *)

(** ** Facts about the map *)

Module JsMapFacts.
Import JsMap.
Section Facts.
Context {V : Type}.
Implicit Types (k : string) (v : V) (m : list (string * V)).

Lemma get_None k m : get k m = None ↔ k ∉ keys m.
Proof.
  induction m as [|[k' v'] m IH]; simpl.
  - split; [intros _; apply not_elem_of_nil | done].
  - case_decide as Hk; simpl in Hk.
    + subst. split; [done | intros []; left].
    + rewrite IH, not_elem_of_cons. split; [by intros | by intros [_ ?]].
Qed.

Lemma get_Some_elem k v m : get k m = Some v → (k, v) ∈ m.
Proof.
  induction m as [|[k' v'] m IH]; simpl; [done|].
  case_decide as Hk; simpl in Hk.
  - intros [= <-]. subst. left.
  - intros. right. auto.
Qed.

Lemma elem_get k v m : NoDup (keys m) → (k, v) ∈ m → get k m = Some v.
Proof.
  induction m as [|[k' v'] m IH]; simpl.
  - intros _ H. by apply elem_of_nil in H.
  - rewrite NoDup_cons. intros [Hk' Hnd] Hin.
    apply elem_of_cons in Hin as [[= -> ->]|Hin].
    + by rewrite decide_True.
    + case_decide as Hk; simpl in Hk; [|by apply IH].
      subst. exfalso. apply Hk'. apply (list_elem_of_fmap_2 fst) in Hin. done.
Qed.

Lemma has_true k m : has k m = true ↔ is_Some (get k m).
Proof. unfold has. apply bool_decide_eq_true. Qed.

Lemma has_false k m : has k m = false ↔ get k m = None.
Proof.
  unfold has. rewrite bool_decide_eq_false, <- eq_None_not_Some. done.
Qed.

Lemma get_app k m1 m2 :
  get k (m1 ++ m2) = match get k m1 with Some v => Some v | None => get k m2 end.
Proof.
  induction m1 as [|[k' v'] m1 IH]; simpl; [done|]. by case_decide.
Qed.

Lemma get_set_eq k v m : get k (set k v m) = Some v.
Proof.
  unfold set. destruct (has k m) eqn:Hh.
  - apply has_true in Hh. induction m as [|[k' v'] m IH]; simpl in *.
    + by destruct Hh.
    + case_decide as Hk; simpl in *.
      * by rewrite decide_True.
      * rewrite decide_False by done. auto.
  - apply has_false in Hh. rewrite get_app, Hh. simpl. by rewrite decide_True.
Qed.

Lemma get_set_ne k k' v m : k ≠ k' → get k' (set k v m) = get k' m.
Proof.
  intros Hne. unfold set. destruct (has k m).
  - induction m as [|[k1 v1] m IH]; [done|].
    rewrite fmap_cons. cbn [get fst snd].
    destruct (decide (k1 = k)) as [->|]; cbn [fst snd].
    + rewrite !decide_False by done. done.
    + by rewrite IH.
  - rewrite get_app. destruct (get k' m); [done|]. simpl.
    by rewrite decide_False.
Qed.

Lemma get_delete_eq k m : get k (delete k m) = None.
Proof.
  apply get_None. unfold delete, keys. intros Hin.
  apply list_elem_of_fmap in Hin as [[k' v'] [-> Hin]].
  apply list_elem_of_filter in Hin as [Hk _]. done.
Qed.

Lemma get_delete_ne k k' m : k ≠ k' → get k' (delete k m) = get k' m.
Proof.
  intros Hne. unfold delete. induction m as [|[k1 v1] m IH]; simpl; [done|].
  rewrite filter_cons. simpl. destruct (decide (k1 ≠ k)) as [Hk|Hk]; simpl.
  - by rewrite IH.
  - apply dec_stable in Hk. subst. by rewrite decide_False.
Qed.

Lemma delete_absent k m : get k m = None → delete k m = m.
Proof.
  unfold delete. induction m as [|[k1 v1] m IH]; simpl; [done|].
  rewrite filter_cons. simpl. case_decide as Hk; simpl in Hk; [done|].
  intros H. rewrite decide_True by done. by rewrite IH.
Qed.

Lemma keys_set k v m : keys (set k v m) = if has k m then keys m else keys m ++ [k].
Proof.
  unfold set, keys. destruct (has k m).
  - rewrite <- list_fmap_compose. apply list_fmap_ext.
    intros i [k1 v1] _. simpl. by case_decide.
  - by rewrite fmap_app.
Qed.

Lemma NoDup_keys_set k v m : NoDup (keys m) → NoDup (keys (set k v m)).
Proof.
  intros Hnd. rewrite keys_set. destruct (has k m) eqn:Hh; [done|].
  apply has_false, get_None in Hh.
  apply NoDup_app. split_and!; [done| |apply NoDup_singleton].
  intros x Hx Hx'. apply list_elem_of_singleton in Hx'. by subst.
Qed.

Lemma keys_delete k m : keys (delete k m) = filter (λ k', k' ≠ k) (keys m).
Proof.
  unfold delete, keys. induction m as [|[k1 v1] m IH]; [done|].
  rewrite fmap_cons, !filter_cons. cbn [fst].
  case_decide; [rewrite fmap_cons; f_equal|]; apply IH.
Qed.

Lemma NoDup_keys_delete k m : NoDup (keys m) → NoDup (keys (delete k m)).
Proof. intros. rewrite keys_delete. by apply NoDup_filter. Qed.

Lemma size_delete k v m :
  NoDup (keys m) → get k m = Some v → S (size (delete k m)) = size m.
Proof.
  unfold size, delete. induction m as [|[k1 v1] m IH]; simpl; [done|].
  rewrite NoDup_cons. intros [Hk1 Hnd]. rewrite filter_cons. simpl.
  case_decide as Hk; simpl in Hk.
  - intros _. subst. rewrite decide_False by (by intros []).
    fold (delete k m). rewrite delete_absent; [done|]. by apply get_None.
  - intros Hg. rewrite decide_True by done. simpl. by rewrite IH.
Qed.
End Facts.
End JsMapFacts.

(** ** Uninterrupted runs *)

Arguments removeSession : simpl never.
Arguments createSession : simpl never.
Arguments getSession : simpl never.

Lemma run_then {A B} (f : A → Async B) (p : Async A) w :
  run (Async_then f p) w =
  match run p w with
  | (Fulfilled a, w') => run (f a) w'
  | (Rejected err, w') => (Rejected err, w')
  end.
Proof.
  revert w. induction p as [a|err|X m k IH|e op k IH|k IH]; intros w; cbn;
    [done | done | destruct (m w) as [x w'] | ..]; auto.
Qed.

Lemma run_bind {A B} (f : A → Async B) (p : Async A) w :
  run (p ≫= f) w =
  match run p w with
  | (Fulfilled a, w') => run (f a) w'
  | (Rejected err, w') => (Rejected err, w')
  end.
Proof. apply run_then. Qed.

Lemma run_await {A} (p : Async A) w : run (await p) w = run p w.
Proof.
  revert w. induction p as [a|err|X m k IH|e op k IH|k IH]; intros w; cbn;
    [done | done | destruct (m w) as [x w'] | ..]; auto.
Qed.

(** An uninterrupted run is what the event loop does when it gives the
    call all the turns. *)
Lemma run_turns {A} (p : Async A) : ∀ w,
  ∃ n, turns n (advance p w).1 (advance p w).2 = (Done (run p w).1, (run p w).2).
Proof.
  induction p as [a|err|X m k IH|e op k IH|k IH]; intros w.
  - by exists 0%nat.
  - by exists 0%nat.
  - cbn [advance run]. destruct (m w) as [x w']. apply IH.
  - cbn [advance run fst snd].
    destruct (settle e op (emit (EvCall e op) w)) as [ok w'] eqn:Hs.
    destruct (IH ok w') as [n Hn]. exists (S n). cbn [turns resume]. rewrite Hs.
    by destruct (advance (k ok) w').
  - cbn [advance run fst snd]. destruct (IH w) as [n Hn]. exists (S n).
    cbn [turns resume]. by destruct (advance k w).
Qed.

Lemma removed_id w : removed w (sessions w) [] [] = w.
Proof. destruct w. unfold removed. cbn. by rewrite !app_nil_r. Qed.

Lemma removed_removed w ss1 evs1 ls1 ss2 evs2 ls2 :
  removed (removed w ss1 evs1 ls1) ss2 evs2 ls2 = removed w ss2 (evs1 ++ evs2) (ls1 ++ ls2).
Proof. unfold removed. cbn. by rewrite !app_assoc. Qed.

Lemma world_eq w1 w2 :
  sessions w1 = sessions w2 → sessionTimeout w1 = sessionTimeout w2 →
  cleanupInterval w1 = cleanupInterval w2 → heap w1 = heap w2 →
  allocated w1 = allocated w2 → environments w1 = environments w2 →
  timers w1 = timers w2 → timer_count w1 = timer_count w2 → ticks w1 = ticks w2 →
  clock w1 = clock w2 → settles w1 = settles w2 → trace w1 = trace w2 →
  console w1 = console w2 → w1 = w2.
Proof. destruct w1, w2. cbn. by intros -> -> -> -> -> -> -> -> -> -> -> -> ->. Qed.

Ltac same_world :=
  apply world_eq; cbn; rewrite <- ?app_assoc, ?app_nil_r; try reflexivity.

Lemma run_removeSession_absent sessionId w :
  JsMap.get sessionId (sessions w) = None →
  run (removeSession sessionId) w = (Fulfilled false, w).
Proof. intros H. unfold removeSession. cbn. by rewrite H. Qed.

Lemma run_removeSession_present sessionId w l :
  JsMap.get sessionId (sessions w) = Some l →
  let e := environment (heap w l) in
  ∃ evs lines,
    run (removeSession sessionId) w =
      (Fulfilled true, removed w (JsMap.delete sessionId (sessions w)) evs lines) ∧
    teardown_events e evs ∧
    evs !! 1%nat =
      Some (EvSettle e Terminate (settles w (trace w ++ [EvCall e Terminate]) e Terminate)).
Proof.
  intros H e. unfold removeSession. cbn. rewrite H. cbn. unfold settle. cbn. fold e.
  destruct (settles w _ _ _) eqn:E1; cbn.
  - destruct (settles w _ _ Cleanup) eqn:E2; cbn.
    + eexists [_; _; _; _], [_; _]. split; [f_equal; same_world|].
      split; [right; by eexists|done].
    + eexists [_; _; _; _], [_; _; _]. split; [f_equal; same_world|].
      split; [right; by eexists|done].
  - eexists [_; _], [_; _; _]. split; [f_equal; same_world|]. split; [by left|done].
Qed.

Lemma filter_not_in_nil {V} (m : list (string * V)) :
  filter (λ kv, kv.1 ∉ ([] : list string)) m = m.
Proof.
  induction m as [|kv m IH]; [done|].
  rewrite filter_cons, decide_True by apply not_elem_of_nil. by rewrite IH.
Qed.


Lemma run_remove_each sessionIds : ∀ w,
  NoDup sessionIds →
  (∀ k, k ∈ sessionIds → is_Some (JsMap.get k (sessions w))) →
  ∃ evss lines,
    run (remove_each sessionIds) w =
      (Fulfilled (),
       removed w (filter (λ kv, kv.1 ∉ sessionIds) (sessions w)) (concat evss) lines) ∧
    Forall2 (λ k evs, ∃ l, JsMap.get k (sessions w) = Some l ∧
                           teardown_events (environment (heap w l)) evs)
      sessionIds evss.
Proof.
  induction sessionIds as [|k rest IH]; intros w Hnd Hin.
  - exists [], []. split; [|constructor]. cbn.
    by rewrite filter_not_in_nil, removed_id.
  - apply NoDup_cons in Hnd as [Hk Hnd].
    destruct (Hin k) as [l Hl]; [left|].
    destruct (run_removeSession_present k w l Hl) as (evs & lines & Hrun & Htd & _).
    destruct (IH (removed w (JsMap.delete k (sessions w)) evs lines) Hnd)
      as (evss & lines' & Hrest & Hall).
    { intros k' Hk'. cbn. rewrite JsMapFacts.get_delete_ne by (intros ->; done).
      apply Hin. by right. }
    exists (evs :: evss), (lines ++ lines'). split.
    + unfold remove_each in *. cbn [for_of]. rewrite run_bind, run_bind, run_await, Hrun.
      cbn [run]. rewrite Hrest, removed_removed. cbn [sessions removed concat]. do 2 f_equal.
      unfold JsMap.delete. rewrite list_filter_filter. apply list_filter_iff.
      intros [k' l']. cbn. rewrite not_elem_of_cons. tauto.
    + constructor; [by exists l|].
      eapply Forall2_impl; [apply Hall|]. cbn. intros k' evs' (l' & Hl' & Htd').
      exists l'. split; [|done].
      destruct (decide (k = k')) as [->|Hne].
      * by rewrite JsMapFacts.get_delete_eq in Hl'.
      * by rewrite JsMapFacts.get_delete_ne in Hl'.
Qed.

Lemma isSessionExpired_eq session w :
  isSessionExpired session w =
    (clock w (ticks w) - lastAccessedAt (heap w session) >=? sessionTimeout w,
     with_ticks (S (ticks w)) w).
Proof. reflexivity. Qed.

Lemma getSession_eq sessionId w :
  getSession sessionId w =
    match JsMap.get sessionId (sessions w) with
    | Some l =>
        (Some l,
         with_heap (store l (mkSession (id (heap w l)) (environment (heap w l))
                               (createdAt (heap w l)) (clock w (ticks w)))
                      (heap w))
           (allocated w) (with_ticks (S (ticks w)) w))
    | None => (None, w)
    end.
Proof.
  unfold getSession, mbind, Sync_bind, sessions_get.
  by destruct (JsMap.get sessionId (sessions w)).
Qed.

Lemma expired_ids_ext w1 w2 entries : ∀ t,
  clock w1 = clock w2 → heap w1 = heap w2 → sessionTimeout w1 = sessionTimeout w2 →
  expired_ids w1 t entries = expired_ids w2 t entries.
Proof.
  intros t Hc Hh Ht. revert t.
  induction entries as [|[k l] rest IH]; intros t; cbn; [done|].
  by rewrite Hc, Hh, Ht, IH.
Qed.

Lemma find_expired_spec entries : ∀ acc w,
  find_expired entries acc w =
    (acc ++ expired_ids w (ticks w) entries,
     with_ticks (ticks w + length entries) w).
Proof.
  induction entries as [|[k l] rest IH]; intros acc w.
  - cbn. rewrite app_nil_r, Nat.add_0_r. by destruct w.
  - cbn [find_expired]. unfold mbind at 1, Sync_bind at 1.
    rewrite isSessionExpired_eq, IH. cbn. f_equal.
    + rewrite (expired_ids_ext _ w) by done.
      destruct (_ >=? _); cbn; by rewrite <- ?app_assoc.
    + unfold with_ticks. cbn. f_equal. lia.
Qed.

Lemma expired_ids_sublist w entries : ∀ t,
  sublist (expired_ids w t entries) (JsMap.keys entries).
Proof.
  induction entries as [|[k l] rest IH]; intros t; cbn; [constructor|].
  destruct (_ >=? _); cbn; [apply sublist_skip || constructor | constructor]; apply IH.
Qed.

Lemma elem_of_expired_ids w entries : ∀ t k,
  k ∈ expired_ids w t entries ↔
  ∃ j l, entries !! j = Some (k, l) ∧
         sessionTimeout w ≤ clock w (t + j) - lastAccessedAt (heap w l).
Proof.
  induction entries as [|[k0 l0] rest IH]; intros t k; cbn.
  - split; [intros H; by apply elem_of_nil in H | by intros (j & l & H & _)].
  - rewrite elem_of_app, IH. split.
    + intros [Hk|(j & l & Hj & Hle)].
      * destruct (_ >=? _) eqn:E; [|by apply elem_of_nil in Hk].
        apply list_elem_of_singleton in Hk as ->. exists 0%nat, l0.
        rewrite Nat.add_0_r. split; [done|]. lia.
      * exists (S j), l. split; [done|]. by replace (t + S j)%nat with (S t + j)%nat by lia.
    + intros ([|j] & l & Hj & Hle); cbn in Hj.
      * injection Hj as -> ->. left. rewrite Nat.add_0_r in Hle.
        destruct (_ >=? _) eqn:E; [apply list_elem_of_singleton; done | lia].
      * right. exists j, l. split; [done|].
        by replace (S t + j)%nat with (t + S j)%nat by lia.
Qed.

Lemma filter_ext_elem {X} (P1 P2 : X → Prop)
    `{!∀ x, Decision (P1 x), !∀ x, Decision (P2 x)} (l : list X) :
  (∀ x, x ∈ l → P1 x ↔ P2 x) → filter P1 l = filter P2 l.
Proof.
  induction l as [|x l IH]; intros Hext; [done|].
  rewrite !filter_cons.
  rewrite IH by (intros y Hy; apply Hext; by right).
  destruct (decide (P1 x)) as [H1|H1], (decide (P2 x)) as [H2|H2];
    try done; exfalso; [apply H2|apply H1]; apply (Hext x); try done; left.
Qed.

Lemma length_filter_not_in {V} (m : list (string * V)) : ∀ ids,
  NoDup (JsMap.keys m) → sublist ids (JsMap.keys m) →
  (length (filter (λ kv, kv.1 ∉ ids) m) + length ids = length m)%nat.
Proof.
  induction m as [|[k v] m IH]; intros ids Hnd Hsub.
  - apply sublist_nil_r in Hsub as ->. done.
  - cbn in Hnd, Hsub. apply NoDup_cons in Hnd as [Hk Hnd].
    rewrite filter_cons. cbn [fst].
    apply sublist_cons_r in Hsub as [Hsub|(ids' & -> & Hsub)].
    + rewrite decide_True.
      * cbn. by rewrite IH.
      * intros Hin. apply Hk. eapply elem_of_sublist; eauto.
    + rewrite decide_False by (intros H; apply H; left).
      cbn. rewrite <- (IH ids' Hnd Hsub).
      rewrite (filter_ext_elem (λ kv, kv.1 ∉ k :: ids') (λ kv, kv.1 ∉ ids') m); [lia|].
      intros [k' v'] Hin. cbn. rewrite not_elem_of_cons.
      split; [by intros [_ ?]|]. intros ?. split; [|done].
      intros ->. apply Hk. by apply (list_elem_of_fmap_2 fst) in Hin.
Qed.

Lemma run_cleanupExpiredSessions w :
  NoDup (JsMap.keys (sessions w)) →
  let expiredSessions := expired_ids w (S (ticks w)) (sessions w) in
  ∃ evss lines,
    run cleanupExpiredSessions w =
      (Fulfilled (length expiredSessions),
       removed (with_ticks (S (ticks w) + length (sessions w)) w)
         (filter (λ kv, kv.1 ∉ expiredSessions) (sessions w)) (concat evss) lines) ∧
    Forall2 (λ k evs, ∃ l, JsMap.get k (sessions w) = Some l ∧
                           teardown_events (environment (heap w l)) evs)
      expiredSessions evss.
Proof.
  intros Hnd expiredSessions.
  assert (Hsub : sublist expiredSessions (JsMap.keys (sessions w)))
    by apply expired_ids_sublist.
  unfold cleanupExpiredSessions. cbn. rewrite find_expired_spec. cbn.
  rewrite (expired_ids_ext _ w) by done. fold expiredSessions.
  rewrite run_then.
  destruct (bool_decide_reflect (0 < length expiredSessions)%nat) as [Hpos|Hz].
  - destruct (run_remove_each expiredSessions
                (print (Log ("Cleaning up " +:+ pretty (length expiredSessions)
                              +:+ " expired session(s)"))
                   (with_ticks (S (ticks w + length (sessions w)))
                      (with_ticks (S (ticks w)) w))))
      as (evss & lines & Hrun & Hall).
    { eapply sublist_NoDup; eauto. }
    { intros k Hk. cbn. apply (elem_of_sublist _ _ _ Hk) in Hsub.
      apply not_eq_None_Some. by intros Hn%JsMapFacts.get_None. }
    exists evss, (Log ("Cleaning up " +:+ pretty (length expiredSessions)
                       +:+ " expired session(s)") :: lines).
    split; [|done]. cbn. fold (remove_each expiredSessions). rewrite Hrun. cbn.
    f_equal. same_world.
  - assert (expiredSessions = []) as -> by (destruct expiredSessions; [done|cbn in Hz; lia]).
    exists [], []. split; [|constructor]. cbn. f_equal.
    rewrite filter_not_in_nil. same_world.
Qed.

Lemma get_filter_not_in {V} (m : list (string * V)) (ids : list string) k :
  JsMap.get k (filter (λ kv, kv.1 ∉ ids) m) =
  if decide (k ∈ ids) then None else JsMap.get k m.
Proof.
  induction m as [|[k' v'] m IH]; [by case_decide|].
  rewrite filter_cons. cbn [fst JsMap.get].
  destruct (decide (k' ∉ ids)) as [Hk'|Hk']; cbn [fst snd JsMap.get]; rewrite IH.
  - destruct (decide (k' = k)) as [->|]; [|done]. by rewrite (decide_False (P:=k ∈ ids)).
  - apply dec_stable in Hk'.
    destruct (decide (k ∈ ids)) as [|Hk]; [done|].
    destruct (decide (k' = k)) as [->|]; done.
Qed.

Lemma lookup_unique_key {V} (m : list (string * V)) j j' k v v' :
  NoDup (JsMap.keys m) → m !! j = Some (k, v) → m !! j' = Some (k, v') →
  j = j' ∧ v = v'.
Proof.
  intros Hnd Hj Hj'.
  assert (j = j') as <-.
  { eapply NoDup_lookup; [apply Hnd| |]; unfold JsMap.keys;
      rewrite list_lookup_fmap; [rewrite Hj|rewrite Hj']; done. }
  split; [done|]. congruence.
Qed.

Lemma expired_ids_judged w t k l j :
  NoDup (JsMap.keys (sessions w)) → sessions w !! j = Some (k, l) →
  k ∈ expired_ids w t (sessions w) ↔
  sessionTimeout w ≤ clock w (t + j) - lastAccessedAt (heap w l).
Proof.
  intros Hnd Hj. rewrite elem_of_expired_ids. split.
  - intros (j' & l' & Hj' & Hle).
    by destruct (lookup_unique_key _ _ _ _ _ _ Hnd Hj Hj') as [-> ->].
  - intros Hle. by exists j, l.
Qed.

(** X17: one pass of the sweep that runs without interruption, started
    by the timer (cleanupExpiredSessions) or by hand (manualCleanup),
    removes exactly the sessions that isSessionExpired reports, that is,
    those whose idle time [now - lastAccessedAt] is at least the timeout at
    the clock reading taken for them; every other session stays, no session
    is touched, and the number returned is the number of sessions removed.
    When the clock shows one time [now] during the scan, the registry
    afterwards is the registry before without the sessions idle for the
    timeout or longer at [now]. *)
Theorem sweep_removes_exactly_the_idle (w : World) :
  wf w →
  ∃ n w',
    run manualCleanup w = (Fulfilled n, w') ∧
    run cleanupExpiredSessions w = (Fulfilled n, w') ∧
    (∀ j k l, sessions w !! j = Some (k, l) →
       JsMap.get k (sessions w') =
         if bool_decide (sessionTimeout w ≤
                           clock w (S (ticks w) + j) - lastAccessedAt (heap w l))
         then None else Some l) ∧
    (∀ k, JsMap.get k (sessions w) = None → JsMap.get k (sessions w') = None) ∧
    heap w' = heap w ∧
    (n + JsMap.size (sessions w') = JsMap.size (sessions w))%nat ∧
    (∀ now, (∀ j, (j ≤ length (sessions w))%nat → clock w (ticks w + j) = now) →
       sessions w' =
         filter (λ kv, now - lastAccessedAt (heap w kv.2) < sessionTimeout w) (sessions w)).
Proof.
  intros [Hnd Hrefs Htimers].
  destruct (run_cleanupExpiredSessions w Hnd) as (evss & lines & Hrun & _).
  cbn zeta in Hrun.
  set (expiredSessions := expired_ids w (S (ticks w)) (sessions w)) in *.
  eexists _, _. unfold manualCleanup. rewrite run_await.
  split_and!; [exact Hrun|exact Hrun|..]; cbn.
  - intros j k l Hj. rewrite get_filter_not_in.
    assert (Hg : JsMap.get k (sessions w) = Some l).
    { apply JsMapFacts.elem_get; [done|]. by eapply list_elem_of_lookup_2. }
    pose proof (expired_ids_judged w (S (ticks w)) k l j Hnd Hj) as Hiff.
    fold expiredSessions in Hiff.
    destruct (decide (k ∈ expiredSessions)) as [Hin|Hin].
    + by rewrite bool_decide_eq_true_2 by by apply Hiff.
    + by rewrite bool_decide_eq_false_2 by by rewrite <- Hiff.
  - intros k Hk. rewrite get_filter_not_in. by case_decide.
  - done.
  - unfold JsMap.size. rewrite Nat.add_comm. apply length_filter_not_in; [done|].
    apply expired_ids_sublist.
  - intros now Hnow. apply filter_ext_elem. intros [k l] Hin. cbn.
    apply list_elem_of_lookup_1 in Hin as [j Hj].
    pose proof (expired_ids_judged w (S (ticks w)) k l j Hnd Hj) as Hiff.
    fold expiredSessions in Hiff. rewrite Hiff.
    replace (S (ticks w) + j)%nat with (ticks w + S j)%nat by lia.
    rewrite Hnow; [lia|]. apply lookup_lt_Some in Hj. lia.
Qed.

(** ** Interleaved calls: the rules of [wp] and its adequacy *)

Section Wp.
Context {T : Type} (I : T → World → Prop).

Lemma wp_mono {A} (p : Async A) (Q Q' : T → Result A → World → Prop) t w :
  (∀ t' r w', Q t' r w' → Q' t' r w') → wp I p Q t w → wp I p Q' t w.
Proof.
  intros HQ. revert t w.
  induction p as [a|err|X m k IH|e op k IH|k IH]; intros t w; cbn; auto.
  - intros [Hi Hk]. split; [done|]. intros t' w' ok Hw'. apply IH, Hk, Hw'.
  - intros [Hi Hk]. split; [done|]. intros t' w' Hw'. apply IH, Hk, Hw'.
Qed.

Lemma wp_then {A B} (f : A → Async B) (p : Async A)
    (Q : T → Result B → World → Prop) t w :
  wp I p (λ t' r w', match r with
                     | Fulfilled a => wp I (f a) Q t' w'
                     | Rejected err => Q t' (Rejected err) w'
                     end) t w →
  wp I (Async_then f p) Q t w.
Proof.
  revert t w. induction p as [a|err|X m k IH|e op k IH|k IH]; intros t w; cbn; auto.
  - intros [Hi Hk]. split; [done|]. intros t' w' ok Hw'. apply IH, Hk, Hw'.
  - intros [Hi Hk]. split; [done|]. intros t' w' Hw'. apply IH, Hk, Hw'.
Qed.

Lemma wp_bind {A B} (f : A → Async B) (p : Async A)
    (Q : T → Result B → World → Prop) t w :
  wp I p (λ t' r w', match r with
                     | Fulfilled a => wp I (f a) Q t' w'
                     | Rejected err => Q t' (Rejected err) w'
                     end) t w →
  wp I (p ≫= f) Q t w.
Proof. apply wp_then. Qed.

Lemma wp_await {A} (p : Async A) (Q : T → Result A → World → Prop) t w :
  wp I p (λ t' r w', I t' w' ∧ ∀ t'' w'', I t'' w'' → Q t'' r w'') t w →
  wp I (await p) Q t w.
Proof.
  revert t w. induction p as [a|err|X m k IH|e op k IH|k IH]; intros t w; cbn; auto.
  - intros [Hi Hk]. split; [done|]. intros t' w' ok Hw'. apply IH, Hk, Hw'.
  - intros [Hi Hk]. split; [done|]. intros t' w' Hw'. apply IH, Hk, Hw'.
Qed.

Lemma wp_try_catch {A} (p : Async A) handler (Q : T → Result A → World → Prop) t w :
  wp I p (λ t' r w', match r with
                     | Fulfilled a => Q t' (Fulfilled a) w'
                     | Rejected err => wp I (handler err) Q t' w'
                     end) t w →
  wp I (try_catch p handler) Q t w.
Proof.
  revert t w. induction p as [a|err|X m k IH|e op k IH|k IH]; intros t w; cbn; auto.
  - intros [Hi Hk]. split; [done|]. intros t' w' ok Hw'. apply IH, Hk, Hw'.
  - intros [Hi Hk]. split; [done|]. intros t' w' Hw'. apply IH, Hk, Hw'.
Qed.

Lemma wp_for_of {X} (xs : list X) body (J : T → World → Prop)
    (Q : T → Result () → World → Prop) t w :
  J t w →
  (∀ x t w, x ∈ xs → J t w →
     wp I (body x) (λ t' r w', match r with
                               | Fulfilled _ => J t' w'
                               | Rejected err => Q t' (Rejected err) w'
                               end) t w) →
  (∀ t w, J t w → Q t (Fulfilled ()) w) →
  wp I (for_of xs body) Q t w.
Proof.
  intros Hw Hbody Hend. revert t w Hw.
  induction xs as [|x xs IH]; intros t w Hw; cbn; [by apply Hend|].
  apply wp_then. eapply wp_mono; [|apply Hbody; [left|done]].
  intros t' [[]|err] w'; [|done]. cbn. apply IH.
  intros x' t'' w'' Hx'. apply Hbody. by right.
Qed.

(** What [wp] promises holds of the steps the event loop takes. *)
Lemma advance_wp {A} (p : Async A) (Q : T → Result A → World → Prop) t w :
  wp I p Q t w →
  match (advance p w).1 with
  | Done r => Q t r (advance p w).2
  | task => I t (advance p w).2 ∧ task_wp I Q task
  end.
Proof.
  revert t w. induction p as [a|err|X m k IH|e op k IH|k IH]; intros t w; cbn; auto.
  intros H. specialize (IH _ _ _ H). by destruct (m w).
Qed.

Lemma resume_wp {A} (task : Task A) (Q : T → Result A → World → Prop) t w :
  I t w → task_wp I Q task →
  match task, (resume task w).1 with
  | Done _, _ => resume task w = (task, w)
  | _, Done r => Q t r (resume task w).2
  | _, task' => I t (resume task w).2 ∧ task_wp I Q task'
  end.
Proof.
  intros Hw Ht. destruct task as [p|e op k|r]; cbn in *; [| |done].
  - apply advance_wp, Ht, Hw.
  - apply advance_wp, Ht, Hw.
Qed.

Lemma advance_keeps (p : Async Value) t w :
  wp I p (λ t' _ w', I t' w') t w →
  I t (advance p w).2 ∧ task_wp I (λ t' _ w', I t' w') (advance p w).1.
Proof.
  intros H. apply advance_wp in H. by destruct (advance p w).1.
Qed.

Lemma resume_keeps (task : Task Value) t w :
  I t w → task_wp I (λ t' _ w', I t' w') task →
  I t (resume task w).2 ∧ task_wp I (λ t' _ w', I t' w') (resume task w).1.
Proof.
  intros Hw Ht. pose proof (resume_wp task _ t w Hw Ht) as H.
  destruct task as [p|e op k|r].
  - by destruct (resume (Ready p) w).1.
  - by destruct (resume (Waiting e op k) w).1.
  - by rewrite H.
Qed.

Lemma fmap_keeps {A B} (f : A → B) (p : Async A) :
  keeps I p → keeps I (f <$> p).
Proof.
  intros Hp t w Hw. apply wp_then. eapply wp_mono; [|by apply Hp].
  by intros t' [a|err] w'.
Qed.

Context (Hserve : ∀ r, keeps I (serve r)).
Context (Hsweep : keeps I (VNumber <$> cleanupExpiredSessions)).

Lemma spawn_keeps p pool t w :
  keeps I p → I t w → orderly I pool →
  I t (spawn p pool w).2 ∧ orderly I (spawn p pool w).1.
Proof.
  intros Hp Hw Hpool. unfold spawn.
  destruct (advance_keeps p t w) as [? ?]; [by apply Hp|].
  destruct (advance p w) as [task w']. cbn [fst snd] in *. split; [done|].
  apply Forall_app. split; [done|]. by constructor.
Qed.

Lemma act_keeps a pool t w :
  I t w → orderly I pool → I t (act a pool w).2 ∧ orderly I (act a pool w).1.
Proof.
  intros Hw Hpool. destruct a as [r|h|i]; unfold act.
  - by apply spawn_keeps.
  - case_bool_decide; [|done]. by apply spawn_keeps.
  - destruct (pool !! i) as [task|] eqn:Hi; [|done].
    destruct (resume_keeps task t w) as [? ?]; [done| |].
    { eapply Forall_lookup_1; eauto. }
    destruct (resume task w) as [task' w']. cbn [fst snd] in *. split; [done|].
    by apply Forall_insert.
Qed.

Lemma exec_keeps schedule : ∀ pool t w,
  I t w → orderly I pool →
  I t (exec schedule pool w).2 ∧ orderly I (exec schedule pool w).1.
Proof.
  induction schedule as [|a rest IH]; intros pool t w Hw Hpool; cbn; [done|].
  destruct (act_keeps a pool t w Hw Hpool) as [? ?].
  destruct (act a pool w). by apply IH.
Qed.
End Wp.

(** ** The invariant is kept by every method *)

Lemma inv_frame o w w' :
  inv o w →
  sessions w' = sessions w → heap w' = heap w → allocated w' = allocated w →
  (ticks w ≤ ticks w')%nat → clock w' = clock w →
  timers w' = timers w → cleanupInterval w' = cleanupInterval w →
  inv o w'.
Proof.
  intros ([Hnd Hrefs Htm] & Hmono & Hts & Htr) Hs Hh Ha Ht Hc Hti Hci.
  split_and!.
  - constructor; rewrite ?Hs, ?Ha, ?Hti, ?Hci; done.
  - by rewrite Hc.
  - intros l Hl. rewrite Hh, Hc. rewrite Ha in Hl. destruct (Hts l Hl) as [? Hpast].
    split; [done|]. intros n Hn. apply Hpast. lia.
  - destruct o as [[l0 s0]|]; [|done]. cbn in *. by rewrite Hh, Ha.
Qed.

Lemma inv_emit o ev w : inv o w → inv o (emit ev w).
Proof. intros H. by eapply inv_frame. Qed.

Lemma inv_print o line w : inv o w → inv o (print line w).
Proof. intros H. by eapply inv_frame. Qed.

Lemma inv_with_ticks o n w : (ticks w ≤ n)%nat → inv o w → inv o (with_ticks n w).
Proof. intros Hn H. by eapply inv_frame. Qed.

Lemma inv_new_environment o w : inv o w → inv o (new_PyodidePythonEnvironment w).2.
Proof. intros H. by eapply inv_frame. Qed.

Lemma inv_getSession o sessionId w : inv o w → inv o (getSession sessionId w).2.
Proof.
  intros Hinv. rewrite getSession_eq.
  destruct (JsMap.get sessionId (sessions w)) as [l|] eqn:Hget; cbn; [|done].
  destruct Hinv as ([Hnd Hrefs Htm] & Hmono & Hts & Htr).
  pose proof (Hrefs _ _ Hget) as Hl.
  split_and!; [by constructor|done|..]; cbn.
  - intros l' Hl'. cbn in Hl' |- *. unfold store. destruct (Hts l' Hl') as [Hle Hpast].
    case_decide as Heq; [subst l'; cbn|].
    + split; [etrans; [apply Hle|]; by apply Hpast|]. intros n Hn. apply Hmono. lia.
    + split; [done|]. intros n Hn. apply Hpast. lia.
  - destruct o as [[l0 s0]|]; [|done]. cbn in *. destruct Htr as [Hl0 Hf].
    split; [done|]. unfold store. case_decide as Heq; [subst l0; cbn|done].
    destruct Hf as (? & ? & ? & Hla). split_and!; try done.
    etrans; [apply Hla|]. by apply (Hts l).
Qed.

Lemma inv_delete o sessionId w : inv o w → inv o (with_sessions (JsMap.delete sessionId) w).
Proof.
  intros ([Hnd Hrefs Htm] & Hmono & Hts & Htr). split_and!; try done.
  constructor; cbn; [by apply JsMapFacts.NoDup_keys_delete| |done].
  intros k l. destruct (decide (sessionId = k)) as [->|Hne].
  - by rewrite JsMapFacts.get_delete_eq.
  - rewrite JsMapFacts.get_delete_ne by done. apply Hrefs.
Qed.

Lemma inv_stopCleanupInterval o w : inv o w → inv o (stopCleanupInterval w).2.
Proof.
  intros ([Hnd Hrefs Htm] & Hmono & Hts & Htr). unfold stopCleanupInterval.
  destruct (cleanupInterval w) as [h|] eqn:Hc; cbn.
  - split_and!; try done. constructor; cbn; [done|done|].
    rewrite Htm. rewrite filter_cons, decide_False; [done|]. by intros ?.
  - split_and!; try done. constructor; try done. by rewrite Hc.
Qed.

(** The synchronous end of createSession: two readings of the clock, the
    new object, its registration. *)
Lemma inv_register o sessionId e w w1 :
  inv o w →
  sessions w1 = sessions w → (S (S (ticks w)) ≤ ticks w1)%nat → clock w1 = clock w →
  timers w1 = timers w → cleanupInterval w1 = cleanupInterval w →
  inv o (with_sessions (JsMap.set sessionId (allocated w))
           (with_heap
              (store (allocated w)
                 (mkSession sessionId e (clock w (ticks w)) (clock w (S (ticks w))))
                 (heap w))
              (S (allocated w)) w1)).
Proof.
  intros ([Hnd Hrefs Htm] & Hmono & Hts & Htr) Hs Ht Hc Hti Hci.
  split_and!; cbn; rewrite ?Hs, ?Hc, ?Hti, ?Hci; [|done|..].
  - constructor; cbn; rewrite ?Hs, ?Hti, ?Hci; [by apply JsMapFacts.NoDup_keys_set| |done].
    intros k l. destruct (decide (sessionId = k)) as [->|Hne].
    + rewrite JsMapFacts.get_set_eq. intros [= <-]. lia.
    + rewrite JsMapFacts.get_set_ne by done. intros Hg. apply Hrefs in Hg. lia.
  - intros l Hl. cbn in Hl |- *. rewrite Hc. unfold store.
    case_decide as Heq; [subst l; cbn|].
    + split; [apply Hmono; lia|]. intros n Hn. apply Hmono. lia.
    + destruct (Hts l) as [? Hpast]; [lia|]. split; [done|].
      intros n Hn. apply Hpast. lia.
  - destruct o as [[l0 s0]|]; [|done]. cbn in *. destruct Htr as [Hl0 Hf].
    split; [lia|]. unfold store. rewrite decide_False by lia. done.
Qed.

Lemma createSession_keeps sessionId : keeps inv (createSession sessionId).
Proof.
  intros o w Hinv. unfold createSession. cbn.
  destruct (JsMap.has sessionId (sessions w)); cbn; [done|].
  split.
  - by eapply inv_frame.
  - intros o' w' [|] Hw'; cbn.
    + apply inv_print. apply inv_register; cbn; try done; lia.
    + by apply inv_emit.
Qed.

Lemma getOrCreateSession_keeps sessionId : keeps inv (getOrCreateSession sessionId).
Proof.
  intros o w Hinv. unfold getOrCreateSession. apply wp_bind. cbn.
  pose proof (inv_getSession o sessionId w Hinv) as Hinv'.
  destruct (getSession sessionId w) as [[l|] w']; cbn in *; [done|].
  apply wp_await. eapply wp_mono; [|by apply createSession_keeps]. by intros.
Qed.

Lemma removeSession_keeps sessionId : keeps inv (removeSession sessionId).
Proof.
  intros o w Hinv. unfold removeSession. cbn.
  destruct (JsMap.get sessionId (sessions w)) as [l|]; cbn; [|done].
  split; [by apply inv_emit, inv_print|].
  intros o1 w1 [|] Hw1; cbn.
  - split; [by do 2 apply inv_emit|].
    intros o2 w2 [|] Hw2; cbn.
    + by apply inv_print, inv_delete, inv_emit.
    + by apply inv_print, inv_delete, inv_print, inv_emit.
  - by apply inv_print, inv_delete, inv_print, inv_emit.
Qed.

Lemma remove_each_keeps sessionIds : keeps inv (remove_each sessionIds).
Proof.
  intros o w Hinv. unfold remove_each.
  apply (wp_for_of _ _ _ inv); [done| |done].
  intros k o' w' _ Hw'. apply wp_bind, wp_await.
  eapply wp_mono; [|by apply removeSession_keeps].
  intros o'' [b|err] w'' Hw''; cbn; by split.
Qed.

Lemma cleanupExpiredSessions_keeps : keeps inv cleanupExpiredSessions.
Proof.
  intros o w Hinv. unfold cleanupExpiredSessions. cbn. rewrite find_expired_spec. cbn.
  apply wp_then. case_bool_decide; cbn.
  - fold (remove_each (expired_ids (with_ticks (S (ticks w)) w) (S (ticks w)) (sessions w))).
    eapply wp_mono; [|apply remove_each_keeps].
    + by intros o' [[]|err] w'.
    + apply inv_print, inv_with_ticks; cbn; [lia|]. by apply inv_with_ticks; [lia|].
  - apply inv_with_ticks; cbn; [lia|]. by apply inv_with_ticks; [lia|].
Qed.

Lemma shutdown_keeps : keeps inv shutdown.
Proof.
  intros o w Hinv. unfold shutdown. cbn. apply wp_then.
  fold (remove_each (JsMap.keys (sessions (stopCleanupInterval
          (print (Log "Shutting down SessionManager...") w)).2))).
  eapply wp_mono; [|apply remove_each_keeps].
  - intros o' [[]|err] w'; cbn; [|done]. apply inv_print.
  - by apply inv_stopCleanupInterval, inv_print.
Qed.

Lemma serve_keeps r : keeps inv (serve r).
Proof.
  destruct r; cbn [serve]; try apply fmap_keeps.
  - apply createSession_keeps.
  - intros o w Hw. cbn. by apply inv_getSession.
  - apply getOrCreateSession_keeps.
  - apply removeSession_keeps.
  - intros o w Hw. apply wp_await. eapply wp_mono; [|by apply cleanupExpiredSessions_keeps].
    by intros.
  - apply shutdown_keeps.
  - intros o w Hw. cbn. by apply inv_stopCleanupInterval.
  - intros o w Hw. by cbn.
  - intros o w Hw. change (inv o (with_ticks (S (ticks w)) w)).
    apply inv_with_ticks; [lia|done].
Qed.

(** Whatever the callers and the timer do, in whatever order the event loop
    resumes the calls, the invariants hold. *)
Lemma exec_inv schedule pool o w :
  inv o w → orderly inv pool →
  inv o (exec schedule pool w).2 ∧ orderly inv (exec schedule pool w).1.
Proof.
  apply exec_keeps; [apply serve_keeps|apply fmap_keeps, cleanupExpiredSessions_keeps].
Qed.

Lemma inv_new_SessionManager minutes clk out :
  clock_monotone clk → inv None (new_SessionManager minutes (boot clk out)).2.
Proof.
  intros Hmono. split_and!; [|done| |done].
  - constructor; cbn; [constructor| |done]. intros k l. by cbn.
  - intros l Hl. cbn in Hl. lia.
Qed.

Lemma inv_track o l w :
  inv o w → (l < allocated w)%nat → inv (Some (l, heap w l)) w.
Proof.
  intros (Hwf & Hmono & Hts & _) Hl. by split_and!.
Qed.

Lemma run_getOrCreateSession_hit sessionId w l :
  JsMap.get sessionId (sessions w) = Some l →
  (getSession sessionId w).1 = Some l ∧
  advance (getOrCreateSession sessionId) w =
    (Done (Fulfilled l), (getSession sessionId w).2) ∧
  run (getOrCreateSession sessionId) w = (Fulfilled l, (getSession sessionId w).2) ∧
  lastAccessedAt (heap (getSession sessionId w).2 l) = clock w (ticks w).
Proof.
  intros Hget. unfold getOrCreateSession. cbn. rewrite getSession_eq, Hget. cbn.
  split_and!; try done. unfold store. by rewrite decide_True.
Qed.

(** C6: a successful lookup (getSession on a present id, or
    getOrCreateSession finding the session) stamps the session with the
    current reading of the clock and returns it at once; and with a clock
    that never goes back, from the construction of the manager on, whatever
    the callers and the timer do and however their calls interleave, the
    lastAccessedAt of a Session object never decreases. *)
Theorem lastAccessedAt_never_decreases minutes clk out schedule schedule' :
  clock_monotone clk →
  let '(pool, w) := exec schedule [] (new_SessionManager minutes (boot clk out)).2 in
  let w' := (exec schedule' pool w).2 in
  (∀ sessionId l, JsMap.get sessionId (sessions w) = Some l →
     let w1 := (getSession sessionId w).2 in
     (getSession sessionId w).1 = Some l ∧
     advance (getOrCreateSession sessionId) w = (Done (Fulfilled l), w1) ∧
     run (getOrCreateSession sessionId) w = (Fulfilled l, w1) ∧
     lastAccessedAt (heap w1 l) = clock w (ticks w) ∧
     lastAccessedAt (heap w l) ≤ lastAccessedAt (heap w1 l)) ∧
  (∀ l, (l < allocated w)%nat →
     lastAccessedAt (heap w l) ≤ lastAccessedAt (heap w' l)).
Proof.
  intros Hmono.
  destruct (exec_inv schedule [] None (new_SessionManager minutes (boot clk out)).2)
    as [Hinv Hpool]; [by apply inv_new_SessionManager|constructor|].
  destruct (exec schedule [] _) as [pool w]. cbn [fst snd] in *.
  split.
  - intros sessionId l Hget.
    destruct (run_getOrCreateSession_hit sessionId w l Hget) as (H1 & H2 & H3 & H4).
    split_and!; try done.
    assert (Hl : (l < allocated w)%nat) by (destruct Hinv as [[]]; eauto).
    pose proof (inv_getSession _ sessionId w (inv_track _ l w Hinv Hl)) as (_ & _ & _ & Htr).
    by destruct Htr as (_ & _ & _ & _ & Hle).
  - intros l Hl.
    destruct (exec_inv schedule' pool _ w (inv_track _ l w Hinv Hl) Hpool)
      as [(_ & _ & _ & Htr) _].
    by destruct Htr as (_ & _ & _ & _ & Hle).
Qed.

Lemma run_createSession_fulfilled sessionId w l w1 :
  run (createSession sessionId) w = (Fulfilled l, w1) →
  l = allocated w ∧
  heap w1 l = mkSession sessionId (environments w) (clock w (ticks w)) (clock w (S (ticks w))) ∧
  JsMap.get sessionId (sessions w1) = Some l.
Proof.
  unfold createSession. cbn.
  destruct (JsMap.has sessionId (sessions w)); cbn; [done|].
  unfold settle. cbn. destruct (settles w _ _ _); cbn; [|done].
  intros [= <- <-]. cbn. unfold store. rewrite decide_True by done.
  by rewrite JsMapFacts.get_set_eq.
Qed.

(** C10 (as amended): with a clock that never goes back, from the
    construction of the manager on, whatever the callers and the timer do and
    however their calls interleave, every session in the registry has
    createdAt ≤ lastAccessedAt: creation stamps the two fields with two
    successive readings of the clock, and afterwards createdAt never changes
    and lastAccessedAt only moves forward. *)
Theorem createdAt_le_lastAccessedAt minutes clk out schedule schedule' :
  clock_monotone clk →
  let '(pool, w) := exec schedule [] (new_SessionManager minutes (boot clk out)).2 in
  let w' := (exec schedule' pool w).2 in
  (∀ sessionId l, JsMap.get sessionId (sessions w) = Some l →
     createdAt (heap w l) ≤ lastAccessedAt (heap w l)) ∧
  (∀ sessionId l w1, run (createSession sessionId) w = (Fulfilled l, w1) →
     JsMap.get sessionId (sessions w1) = Some l ∧
     createdAt (heap w1 l) = clock w (ticks w) ∧
     lastAccessedAt (heap w1 l) = clock w (S (ticks w)) ∧
     createdAt (heap w1 l) ≤ lastAccessedAt (heap w1 l)) ∧
  (∀ l, (l < allocated w)%nat →
     createdAt (heap w' l) = createdAt (heap w l) ∧
     lastAccessedAt (heap w l) ≤ lastAccessedAt (heap w' l)).
Proof.
  intros Hmono.
  destruct (exec_inv schedule [] None (new_SessionManager minutes (boot clk out)).2)
    as [Hinv Hpool]; [by apply inv_new_SessionManager|constructor|].
  destruct (exec schedule [] _) as [pool w]. cbn [fst snd] in *.
  split_and!.
  - intros sessionId l Hget. destruct Hinv as ([_ Hrefs _] & _ & Hts & _).
    by apply Hts, (Hrefs sessionId).
  - intros sessionId l w1 Hrun.
    apply run_createSession_fulfilled in Hrun as (-> & Hs & Hg).
    rewrite Hs. cbn. split_and!; try done.
    destruct Hinv as (_ & Hm & _). apply Hm. lia.
  - intros l Hl.
    destruct (exec_inv schedule' pool _ w (inv_track _ l w Hinv Hl) Hpool)
      as [(_ & _ & _ & Htr) _].
    by destruct Htr as (_ & _ & _ & Hc & Hle).
Qed.

Lemma filter_not_in_keys {V} (m : list (string * V)) :
  filter (λ kv, kv.1 ∉ JsMap.keys m) m = [].
Proof.
  rewrite (filter_ext_elem _ (λ _, False) m); [by induction m|].
  intros [k v] Hin. split; [|done]. intros Hk. apply Hk.
  by apply (list_elem_of_fmap_2 fst) in Hin.
Qed.

Lemma stopCleanupInterval_eq w :
  timers w = match cleanupInterval w with Some h => [h] | None => [] end →
  stopCleanupInterval w = (tt, with_timers None [] (timer_count w) w).
Proof.
  intros Htm. unfold stopCleanupInterval.
  destruct (cleanupInterval w) as [h|] eqn:Hc; f_equal; same_world.
  - rewrite Htm. by rewrite filter_cons, decide_False by (by intros ?).
  - done.
  - done.
Qed.

Lemma run_shutdown w :
  wf w →
  ∃ evss lines,
    run shutdown w =
      (Fulfilled (),
       removed (with_timers None [] (timer_count w) w) [] (concat evss) lines) ∧
    Forall2 (λ k evs, ∃ l, JsMap.get k (sessions w) = Some l ∧
                           teardown_events (environment (heap w l)) evs)
      (JsMap.keys (sessions w)) evss.
Proof.
  intros [Hnd Hrefs Htm]. unfold shutdown. cbn.
  rewrite stopCleanupInterval_eq by done. cbn. rewrite run_bind.
  set (w0 := with_timers None [] (timer_count w)
               (print (Log "Shutting down SessionManager...") w)).
  fold (remove_each (JsMap.keys (sessions w))).
  destruct (run_remove_each (JsMap.keys (sessions w)) w0) as (evss & lines & Hrun & Hall);
    [done| |].
  { intros k Hk. apply not_eq_None_Some. by intros Hn%JsMapFacts.get_None. }
  unfold remove_each in Hrun. change ((sessions w).*1) with (JsMap.keys (sessions w)).
  rewrite Hrun. cbn.
  exists evss, ([Log "Shutting down SessionManager..."] ++ lines ++
                [Log "SessionManager shutdown complete"]).
  split; [|done]. f_equal. rewrite filter_not_in_keys. same_world.
Qed.

Lemma run_getOrCreateSession_miss sessionId w :
  JsMap.get sessionId (sessions w) = None →
  let e := environments w in
  let ok := settles w (trace w ++ [EvNew e; EvCall e Init]) e Init in
  ∃ w',
    run (getOrCreateSession sessionId) w =
      (if ok then Fulfilled (allocated w) else Rejected (EnvFailure e Init), w') ∧
    trace w' = trace w ++ [EvNew e; EvCall e Init; EvSettle e Init ok] ∧
    environments w' = S e ∧ settles w' = settles w ∧
    if ok
    then JsMap.get sessionId (sessions w') = Some (allocated w) ∧
         environment (heap w' (allocated w)) = e
    else sessions w' = sessions w ∧ heap w' = heap w ∧ allocated w' = allocated w.
Proof.
  intros Hget e ok. unfold getOrCreateSession. cbn. rewrite getSession_eq, Hget. cbn.
  rewrite run_await. unfold createSession. cbn.
  rewrite (proj2 (JsMapFacts.has_false _ _) Hget). cbn. unfold settle. cbn.
  rewrite <- !app_assoc. cbn. fold e. fold ok. destruct ok; cbn.
  - eexists. split; [reflexivity|]. cbn. rewrite <- !app_assoc. cbn.
    split_and!; try done.
    + apply JsMapFacts.get_set_eq.
    + unfold store. by rewrite decide_True.
  - eexists. split; [reflexivity|]. cbn. rewrite <- !app_assoc. by cbn.
Qed.


(** C9: removeSession of an id that is not in the registry returns false at
    once, throws nothing, and changes nothing: the registry, the Session
    objects and everything else are as before. *)
Theorem removeSession_absent_is_noop sessionId w :
  JsMap.get sessionId (sessions w) = None →
  run (removeSession sessionId) w = (Fulfilled false, w) ∧
  advance (removeSession sessionId) w = (Done (Fulfilled false), w) ∧
  ∀ pool, act (Incoming (CallRemoveSession sessionId)) pool w =
            (pool ++ [Done (Fulfilled (VBool false))], w).
Proof.
  intros Hget. split_and!.
  - by apply run_removeSession_absent.
  - unfold removeSession. cbn. by rewrite Hget.
  - intros pool. unfold act, spawn, serve, removeSession. cbn. by rewrite Hget.
Qed.

(** C8: tearing a session down never fails the removal.  Whatever terminate
    and cleanup do, removeSession of a present id deletes exactly that entry
    and returns true; this is so too when other calls run while it is
    suspended: it ends within two more turns, with true, the id absent.  And
    a pass of the sweep processes every session it selected, whichever of
    the teardowns fail: each is torn down and each is gone afterwards. *)
Theorem teardown_failures_are_absorbed w :
  wf w →
  (∀ sessionId l, JsMap.get sessionId (sessions w) = Some l →
     (∃ w', run (removeSession sessionId) w = (Fulfilled true, w') ∧
            sessions w' = JsMap.delete sessionId (sessions w) ∧
            JsMap.get sessionId (sessions w') = None ∧
            ∀ k, k ≠ sessionId → JsMap.get k (sessions w') = JsMap.get k (sessions w)) ∧
     match advance (removeSession sessionId) w with
     | (Waiting e op k, _) =>
         ends_within 2 (λ r w', r = Fulfilled true ∧
                                JsMap.get sessionId (sessions w') = None)
           (Waiting e op k)
     | _ => False
     end) ∧
  (∃ n w' evss,
     run cleanupExpiredSessions w = (Fulfilled n, w') ∧
     trace w' = trace w ++ concat evss ∧
     Forall2 (λ k evs, ∃ l, JsMap.get k (sessions w) = Some l ∧
                            teardown_events (environment (heap w l)) evs)
       (expired_ids w (S (ticks w)) (sessions w)) evss ∧
     ∀ k, k ∈ expired_ids w (S (ticks w)) (sessions w) →
          JsMap.get k (sessions w') = None).
Proof.
  intros Hwf. split.
  - intros sessionId l Hget. split.
    + destruct (run_removeSession_present sessionId w l Hget) as (evs & lines & Hrun & _).
      eexists. split; [exact Hrun|]. cbn. split_and!; [done|..].
      * apply JsMapFacts.get_delete_eq.
      * intros k Hk. by apply JsMapFacts.get_delete_ne.
    + unfold removeSession. cbn. rewrite Hget. cbn.
      intros w1. unfold settle. cbn. destruct (settles w1 _ _ _); cbn.
      * intros w2. unfold settle. cbn.
        destruct (settles w2 _ _ _); cbn; (split; [done|apply JsMapFacts.get_delete_eq]).
      * split; [done|apply JsMapFacts.get_delete_eq].
  - destruct (run_cleanupExpiredSessions w) as (evss & lines & Hrun & Hall);
      [by destruct Hwf|].
    cbn zeta in Hrun. eexists _, _, evss. split; [exact Hrun|]. cbn.
    split_and!; try done.
    intros k Hk. rewrite get_filter_not_in. by rewrite decide_True.
Qed.

(** C3 (as amended): removeSession of a present id tears the session down
    first and deletes the entry last.  While it is suspended on terminate,
    and then on cleanup, the registry is unchanged and a lookup of the id
    returns the session; the entry is deleted in the turn in which the
    teardown has settled (or failed), and the call then returns true. *)
Theorem removeSession_deletes_after_teardown sessionId w l :
  JsMap.get sessionId (sessions w) = Some l →
  let e := environment (heap w l) in
  ∃ k1 w1,
    advance (removeSession sessionId) w = (Waiting e Terminate k1, w1) ∧
    trace w1 = trace w ++ [EvCall e Terminate] ∧
    sessions w1 = sessions w ∧
    (getSession sessionId w1).1 = Some l ∧
    match resume (Waiting e Terminate k1) w1 with
    | (Done r, w2) =>
        r = Fulfilled true ∧ JsMap.get sessionId (sessions w2) = None ∧
        last (trace w2) = Some (EvSettle e Terminate false)
    | (Waiting e' op k2, w2) =>
        e' = e ∧ op = Cleanup ∧
        trace w2 = trace w1 ++ [EvSettle e Terminate true; EvCall e Cleanup] ∧
        sessions w2 = sessions w ∧
        (getSession sessionId w2).1 = Some l ∧
        ∃ w3, resume (Waiting e' op k2) w2 = (Done (Fulfilled true), w3) ∧
              JsMap.get sessionId (sessions w3) = None
    | (Ready _, _) => False
    end.
Proof.
  intros Hget e. unfold removeSession. cbn. rewrite Hget. cbn. fold e.
  eexists _, _. split; [reflexivity|]. cbn.
  rewrite getSession_eq. cbn. rewrite Hget. cbn. split_and!; try done.
  unfold settle. cbn. fold e. destruct (settles w _ _ _); cbn.
  - rewrite getSession_eq. cbn. rewrite Hget. cbn. rewrite <- !app_assoc. cbn.
    split_and!; try done. fold e.
    unfold settle. cbn. destruct (settles w _ _ _); cbn;
      (eexists; split; [reflexivity|]; cbn; apply JsMapFacts.get_delete_eq).
  - split_and!; [done|apply JsMapFacts.get_delete_eq|]. by rewrite last_snoc.
Qed.

(** ** The statements on the scenarios *)

Lemma ticking_monotone step : 0 ≤ step → clock_monotone (ticking step).
Proof. intros Hs n m Hnm. unfold ticking. nia. Qed.

Ltac wf_by_computation :=
  match goal with
  | |- wf ?W =>
      let ss := eval vm_compute in (sessions W) in
      let al := eval vm_compute in (allocated W) in
      constructor;
      [ change (sessions W) with ss; apply (bool_decide_unpack _); vm_compute; exact I
      | change (sessions W) with ss; change (allocated W) with al; intros k l;
        cbn [JsMap.get fst snd]; repeat case_decide; intros; simplify_eq; lia
      | vm_compute; reflexivity ]
  end.

(** C1, on the code: two callers ask for the session "new" of the fresh
    manager while it is absent.  Both pass the existence check before either
    has registered its session, so init is called twice, on two
    environments; the callers receive two different Session objects, with
    different createdAt; the second registration overwrites the first, whose
    environment is never terminated.  The property of C1 (one init, the same
    Session for all callers) does not hold of this run. *)
Theorem concurrent_callers_create_twice :
  let w0 := sessionManager (ticking 1) all_well in
  let '(pool, w) := exec two_callers [] w0 in
  JsMap.get "new" (sessions w0) = None ∧
  pool = [Done (Fulfilled (VSession 0%nat)); Done (Fulfilled (VSession 1%nat))] ∧
  calls Init (trace w) = [0%nat; 1%nat] ∧
  createdAt (heap w 0%nat) = 0 ∧ createdAt (heap w 1%nat) = 2 ∧
  environment (heap w 0%nat) = 0%nat ∧ environment (heap w 1%nat) = 1%nat ∧
  sessions w = [("new", 1%nat)] ∧
  calls Terminate (trace w) = [] ∧ calls Cleanup (trace w) = [].
Proof. vm_compute. by split_and!. Qed.

(** C2, refuted as stated: the terminate of the session's environment
    fails; removeSession then never calls cleanup. *)
Lemma terminate_failure_skips_cleanup :
  let w := one_session (ticking 1) (failing Terminate) in
  let '(r, w') := run (removeSession "s1") w in
  JsMap.get "s1" (sessions w) = Some 0%nat ∧
  r = Fulfilled true ∧
  trace w' = trace w ++ [EvCall 0%nat Terminate; EvSettle 0%nat Terminate false] ∧
  calls Cleanup (trace w') = [].
Proof. vm_compute. by split_and!. Qed.

(** C3, refuted as stated: removeSession("s1") is suspended on terminate
    when another caller looks "s1" up: the lookup returns the session, which
    is still in the registry. *)
Lemma lookup_during_teardown_finds_the_session :
  let w0 := one_session (ticking 1) all_well in
  let '(pool, w) :=
    exec [Incoming (CallRemoveSession "s1"); Incoming (CallGetSession "s1")] [] w0 in
  match pool with
  | [Waiting e Terminate _; Done r] =>
      e = environment (heap w0 0%nat) ∧
      last (trace w) = Some (EvCall e Terminate) ∧
      r = Fulfilled (VSession 0%nat) ∧
      JsMap.get "s1" (sessions w) = Some 0%nat
  | _ => False
  end.
Proof. vm_compute. by split_and!. Qed.

(** C7, refuted as stated: shutdown with one session whose terminate
    fails: the session is removed and the timer cleared, but cleanup is not
    attempted. *)
Lemma shutdown_skips_cleanup_after_failed_terminate :
  let w := one_session (ticking 1) (failing Terminate) in
  let '(r, w') := run shutdown w in
  JsMap.keys (sessions w) = ["s1"] ∧
  r = Fulfilled () ∧ sessions w' = [] ∧ timers w' = [] ∧
  calls Terminate (trace w') = [0%nat] ∧
  calls Cleanup (trace w') = [].
Proof. vm_compute. by split_and!. Qed.

(** C10, refuted as stated: the clock advances by a millisecond at each
    reading; the session just created has createdAt 0 and lastAccessedAt 1,
    not the same instant. *)
Lemma creation_reads_the_clock_twice :
  let w := one_session (ticking 1) all_well in
  clock_monotone (ticking 1) ∧
  JsMap.get "s1" (sessions w) = Some 0%nat ∧
  createdAt (heap w 0%nat) = 0 ∧ lastAccessedAt (heap w 0%nat) = 1 ∧
  createdAt (heap w 0%nat) ≠ lastAccessedAt (heap w 0%nat).
Proof. split; [by apply ticking_monotone|]. vm_compute. by split_and!. Qed.

Lemma removeSession_deletes_after_teardown_witness :
  let w := one_session (ticking 1) all_well in
  JsMap.get "s1" (sessions w) = Some 0%nat ∧
  ∃ k1 w1, advance (removeSession "s1") w = (Waiting 0%nat Terminate k1, w1) ∧
           sessions w1 = sessions w.
Proof.
  intros w. assert (Hget : JsMap.get "s1" (sessions w) = Some 0%nat) by reflexivity.
  split; [exact Hget|].
  destruct (removeSession_deletes_after_teardown "s1" w 0%nat Hget)
    as (k1 & w1 & Hadv & _ & Hs & _).
  exists k1, w1. split; [exact Hadv|exact Hs].
Defined.


Lemma sweep_removes_exactly_the_idle_witness :
  let w := two_sessions (ticking 15000) all_well in
  wf w ∧
  ∃ n w', run manualCleanup w = (Fulfilled n, w') ∧
          JsMap.get "s1" (sessions w') = None ∧
          JsMap.get "s2" (sessions w') = Some 1%nat ∧
          (n + JsMap.size (sessions w') = 2)%nat.
Proof.
  intros w. assert (Hwf : wf w) by (subst w; wf_by_computation).
  split; [exact Hwf|].
  destruct (sweep_removes_exactly_the_idle w Hwf)
    as (n & w' & Hrun & _ & Hexact & _ & _ & Hcount & _).
  exists n, w'. split_and!; [exact Hrun| | |exact Hcount].
  - exact (Hexact 0%nat "s1" 0%nat eq_refl).
  - exact (Hexact 1%nat "s2" 1%nat eq_refl).
Defined.

Lemma lastAccessedAt_never_decreases_witness :
  clock_monotone (ticking 1) ∧
  let '(pool, w) :=
    exec [Incoming (CallGetOrCreateSession "s1"); Turn 0; Turn 0] []
      (new_SessionManager 1 (boot (ticking 1) all_well)).2 in
  let w' := (exec [Incoming (CallGetSession "s1")] pool w).2 in
  (∀ sessionId l, JsMap.get sessionId (sessions w) = Some l →
     let w1 := (getSession sessionId w).2 in
     (getSession sessionId w).1 = Some l ∧
     advance (getOrCreateSession sessionId) w = (Done (Fulfilled l), w1) ∧
     run (getOrCreateSession sessionId) w = (Fulfilled l, w1) ∧
     lastAccessedAt (heap w1 l) = clock w (ticks w) ∧
     lastAccessedAt (heap w l) ≤ lastAccessedAt (heap w1 l)) ∧
  (∀ l, (l < allocated w)%nat →
     lastAccessedAt (heap w l) ≤ lastAccessedAt (heap w' l)).
Proof.
  assert (Hmono : clock_monotone (ticking 1)) by (intros n m Hnm; unfold ticking; lia).
  split; [exact Hmono|].
  exact (lastAccessedAt_never_decreases 1 (ticking 1) all_well
           [Incoming (CallGetOrCreateSession "s1"); Turn 0; Turn 0]
           [Incoming (CallGetSession "s1")] Hmono).
Defined.

Lemma teardown_failures_are_absorbed_witness :
  let w := two_sessions (ticking 1) (failing Terminate) in
  wf w ∧ ∃ w', run (removeSession "s2") w = (Fulfilled true, w') ∧
               JsMap.get "s2" (sessions w') = None ∧
               JsMap.get "s1" (sessions w') = Some 0%nat.
Proof.
  intros w. assert (Hwf : wf w) by (subst w; wf_by_computation).
  split; [exact Hwf|].
  destruct (teardown_failures_are_absorbed w Hwf) as [Hrm _].
  destruct (Hrm "s2" 1%nat eq_refl) as [(w' & Hrun & _ & Hgone & Hothers) _].
  exists w'. split_and!; [exact Hrun|exact Hgone|].
  rewrite Hothers; [reflexivity|]. intros [=].
Defined.

Lemma removeSession_absent_is_noop_witness :
  let w := one_session (ticking 1) all_well in
  JsMap.get "missing" (sessions w) = None ∧
  run (removeSession "missing") w = (Fulfilled false, w).
Proof.
  intros w. assert (Hget : JsMap.get "missing" (sessions w) = None) by reflexivity.
  split; [exact Hget|].
  exact (proj1 (removeSession_absent_is_noop "missing" w Hget)).
Defined.

Lemma createdAt_le_lastAccessedAt_witness :
  clock_monotone (ticking 1) ∧
  let '(pool, w) :=
    exec two_callers [] (new_SessionManager 1 (boot (ticking 1) all_well)).2 in
  let w' := (exec [Incoming (CallGetSession "new")] pool w).2 in
  (∀ sessionId l, JsMap.get sessionId (sessions w) = Some l →
     createdAt (heap w l) ≤ lastAccessedAt (heap w l)) ∧
  (∀ sessionId l w1, run (createSession sessionId) w = (Fulfilled l, w1) →
     JsMap.get sessionId (sessions w1) = Some l ∧
     createdAt (heap w1 l) = clock w (ticks w) ∧
     lastAccessedAt (heap w1 l) = clock w (S (ticks w)) ∧
     createdAt (heap w1 l) ≤ lastAccessedAt (heap w1 l)) ∧
  (∀ l, (l < allocated w)%nat →
     createdAt (heap w' l) = createdAt (heap w l) ∧
     lastAccessedAt (heap w l) ≤ lastAccessedAt (heap w' l)).
Proof.
  assert (Hmono : clock_monotone (ticking 1)) by (intros n m Hnm; unfold ticking; lia).
  split; [exact Hmono|].
  exact (createdAt_le_lastAccessedAt 1 (ticking 1) all_well two_callers
           [Incoming (CallGetSession "new")] Hmono).
Defined.


(** * Further properties *)

(** ** The methods one at a time *)

Lemma run_getOrCreateSession_created sessionId w :
  JsMap.get sessionId (sessions w) = None →
  let e := environments w in
  settles w (trace w ++ [EvNew e; EvCall e Init]) e Init = true →
  ∃ w',
    run (getOrCreateSession sessionId) w = (Fulfilled (allocated w), w') ∧
    sessions w' = sessions w ++ [(sessionId, allocated w)] ∧
    heap w' = store (allocated w)
                (mkSession sessionId e (clock w (ticks w)) (clock w (S (ticks w))))
                (heap w) ∧
    allocated w' = S (allocated w) ∧ environments w' = S e ∧
    ticks w' = S (S (ticks w)) ∧
    trace w' = trace w ++ [EvNew e; EvCall e Init; EvSettle e Init true] ∧
    clock w' = clock w ∧ settles w' = settles w ∧
    sessionTimeout w' = sessionTimeout w ∧
    timers w' = timers w ∧ cleanupInterval w' = cleanupInterval w.
Proof.
  intros Hget e Hok. unfold getOrCreateSession. cbn. rewrite getSession_eq, Hget. cbn.
  rewrite run_await. unfold createSession. cbn.
  rewrite (proj2 (JsMapFacts.has_false _ _) Hget). cbn. unfold settle. cbn.
  rewrite <- !app_assoc. cbn. fold e. rewrite Hok. cbn.
  eexists. split; [reflexivity|]. cbn. rewrite <- !app_assoc. cbn.
  unfold JsMap.set. rewrite (proj2 (JsMapFacts.has_false _ _) Hget). by split_and!.
Qed.

(** X1: createSession for an id that is already registered throws "already
    exists" at once, before anything else happens: no environment is
    constructed, nothing is printed, the world is as it was. *)
Theorem createSession_existing_id_throws sessionId w l :
  JsMap.get sessionId (sessions w) = Some l →
  run (createSession sessionId) w = (Rejected (AlreadyExists sessionId), w) ∧
  advance (createSession sessionId) w = (Done (Rejected (AlreadyExists sessionId)), w).
Proof.
  intros Hget. unfold createSession. cbn.
  assert (JsMap.has sessionId (sessions w) = true) as ->
    by (apply JsMapFacts.has_true; by rewrite Hget).
  done.
Qed.

(** X2: getSession returns what the registry holds under the id and writes
    nothing but the lastAccessedAt of the session it found: the registry,
    the trace, the console and every other field of every Session object are
    untouched; for an absent id nothing at all changes, not even the number
    of clock readings. *)
Theorem getSession_writes_only_lastAccessedAt sessionId w :
  (getSession sessionId w).1 = JsMap.get sessionId (sessions w) ∧
  sessions (getSession sessionId w).2 = sessions w ∧
  trace (getSession sessionId w).2 = trace w ∧
  console (getSession sessionId w).2 = console w ∧
  allocated (getSession sessionId w).2 = allocated w ∧
  (∀ l, id (heap (getSession sessionId w).2 l) = id (heap w l) ∧
        environment (heap (getSession sessionId w).2 l) = environment (heap w l) ∧
        createdAt (heap (getSession sessionId w).2 l) = createdAt (heap w l)) ∧
  (∀ l, JsMap.get sessionId (sessions w) ≠ Some l →
        heap (getSession sessionId w).2 l = heap w l) ∧
  (JsMap.get sessionId (sessions w) = None → (getSession sessionId w).2 = w).
Proof.
  rewrite getSession_eq.
  destruct (JsMap.get sessionId (sessions w)) as [l0|] eqn:Hget; cbn; [|done].
  split_and!; try done.
  - intros l. unfold store. by case_decide; subst.
  - intros l Hl. unfold store. case_decide; [|done]. by subst.
Qed.

(** X3: getActiveSessionCount follows the registry through the other
    methods: a successful creation of a new id adds one, a lookup that hits
    and a failed creation leave it, removing a present id takes one off and
    removing an absent id leaves it. *)
Theorem count_follows_the_registry sessionId w :
  wf w →
  let count (w : World) := (getActiveSessionCount w).1 in
  let e := environments w in
  let w' := (run (getOrCreateSession sessionId) w).2 in
  let w'' := (run (removeSession sessionId) w).2 in
  match JsMap.get sessionId (sessions w) with
  | None =>
      count w' = (if settles w (trace w ++ [EvNew e; EvCall e Init]) e Init
                  then S (count w) else count w) ∧
      count w'' = count w
  | Some _ =>
      count w' = count w ∧ S (count w'') = count w
  end.
Proof.
  intros [Hnd _ _] count e w' w''. subst count w' w''.
  destruct (JsMap.get sessionId (sessions w)) as [l|] eqn:Hget.
  - destruct (run_getOrCreateSession_hit sessionId w l Hget) as (_ & _ & -> & _).
    destruct (run_removeSession_present sessionId w l Hget) as (evs & lines & -> & _).
    cbn. rewrite getSession_eq, Hget. cbn. split; [done|].
    by apply (JsMapFacts.size_delete _ l).
  - rewrite run_removeSession_absent by done. split; [|done].
    destruct (settles w _ _ _) eqn:Hok.
    + destruct (run_getOrCreateSession_created sessionId w Hget Hok) as (w' & -> & Hs & _).
      cbn. rewrite Hs. unfold JsMap.size. rewrite length_app. cbn. lia.
    + destruct (run_getOrCreateSession_miss sessionId w Hget) as (w' & -> & _ & _ & _ & Hrest).
      fold e in Hrest. rewrite Hok in Hrest. destruct Hrest as (Hs & _). cbn. by rewrite Hs.
Qed.

(** X4: create, then look up.  After getOrCreateSession has created the
    session of a new id, getSession returns that session, and a second
    getOrCreateSession returns it too, at once: no environment is
    constructed or called, createdAt is what it was, and lastAccessedAt is
    the reading of the clock at the second call. *)
Theorem lookup_after_creation_returns_the_session sessionId w :
  JsMap.get sessionId (sessions w) = None →
  let e := environments w in
  settles w (trace w ++ [EvNew e; EvCall e Init]) e Init = true →
  ∃ session w1 w2,
    run (getOrCreateSession sessionId) w = (Fulfilled session, w1) ∧
    (getSession sessionId w1).1 = Some session ∧
    advance (getOrCreateSession sessionId) w1 = (Done (Fulfilled session), w2) ∧
    run (getOrCreateSession sessionId) w1 = (Fulfilled session, w2) ∧
    environments w2 = environments w1 ∧ trace w2 = trace w1 ∧
    environment (heap w2 session) = e ∧
    createdAt (heap w2 session) = createdAt (heap w1 session) ∧
    createdAt (heap w2 session) = clock w (ticks w) ∧
    lastAccessedAt (heap w2 session) = clock w (S (S (ticks w))).
Proof.
  intros Hget e Hok.
  destruct (run_getOrCreateSession_created sessionId w Hget Hok)
    as (w1 & Hrun & Hs & Hh & Ha & He & Ht & Htr & Hc & _).
  assert (Hget1 : JsMap.get sessionId (sessions w1) = Some (allocated w)).
  { rewrite Hs, JsMapFacts.get_app, Hget. cbn. by rewrite decide_True. }
  destruct (run_getOrCreateSession_hit sessionId w1 _ Hget1) as (H1 & H2 & H3 & H4).
  exists (allocated w), w1, (getSession sessionId w1).2.
  split_and!; try done; rewrite ?getSession_eq, ?Hget1; cbn; try done.
  - rewrite Hh. unfold store. by rewrite !decide_True.
  - unfold store. by rewrite decide_True.
  - rewrite Hh. unfold store. by rewrite !decide_True.
  - unfold store. rewrite decide_True by done. cbn. by rewrite Hc, Ht.
Qed.

(** X5: remove, then look up.  Once removeSession of a present id has
    ended, getSession of the id returns null and a second removeSession
    returns false; a later getOrCreateSession does not revive the old
    session: it makes a new Session object, with a newly constructed
    environment and the time of the new creation, and leaves the old object
    as it was. *)
Theorem removed_session_is_not_revived sessionId w old :
  wf w →
  JsMap.get sessionId (sessions w) = Some old →
  ∃ w1,
    run (removeSession sessionId) w = (Fulfilled true, w1) ∧
    getSession sessionId w1 = (None, w1) ∧
    run (removeSession sessionId) w1 = (Fulfilled false, w1) ∧
    let e := environments w1 in
    (settles w1 (trace w1 ++ [EvNew e; EvCall e Init]) e Init = true →
     ∃ session w2,
       run (getOrCreateSession sessionId) w1 = (Fulfilled session, w2) ∧
       session ≠ old ∧
       JsMap.get sessionId (sessions w2) = Some session ∧
       heap w2 old = heap w old ∧
       environment (heap w2 session) = environments w ∧
       createdAt (heap w2 session) = clock w (ticks w) ∧
       calls Init (trace w2) = calls Init (trace w) ++ [environments w]).
Proof.
  intros [Hnd Hrefs _] Hget.
  destruct (run_removeSession_present sessionId w old Hget) as (evs & lines & Hrun & Htd & _).
  eexists. split; [exact Hrun|].
  set (w1 := removed w (JsMap.delete sessionId (sessions w)) evs lines).
  assert (Hget1 : JsMap.get sessionId (sessions w1) = None)
    by apply JsMapFacts.get_delete_eq.
  split_and!.
  - by rewrite getSession_eq, Hget1.
  - by apply run_removeSession_absent.
  - intros e Hok.
    destruct (run_getOrCreateSession_created sessionId w1 Hget1 Hok)
      as (w2 & Hrun2 & Hs & Hh & Ha & He & Ht & Htr & _).
    exists (allocated w), w2. pose proof (Hrefs _ _ Hget) as Hold.
    split_and!; [exact Hrun2|cbn in *; lia|..].
    + rewrite Hs, JsMapFacts.get_app, Hget1. cbn. by rewrite decide_True.
    + rewrite Hh. unfold store. cbn. rewrite decide_False by lia. done.
    + rewrite Hh. unfold store. cbn. by rewrite decide_True.
    + rewrite Hh. unfold store. cbn. by rewrite decide_True.
    + rewrite Htr. cbn. unfold calls. rewrite !omap_app. cbn.
      fold (calls Init (trace w)). fold (calls Init evs).
      assert (calls Init evs = []) as ->.
      { destruct Htd as [->|[ok ->]]; cbn; by rewrite ?decide_False. }
      by rewrite app_nil_r, decide_True.
Qed.

(** X6: getOrCreateSession for one id does not touch the sessions of the
    other ids, whether it finds the session, creates it or fails to: every
    other id maps to the Session object it mapped to, and that object is
    unchanged, its lastAccessedAt included. *)
Theorem getOrCreateSession_leaves_the_other_sessions sessionId w :
  wf w → ids_ok w →
  let w' := (run (getOrCreateSession sessionId) w).2 in
  ∀ k, k ≠ sessionId →
    JsMap.get k (sessions w') = JsMap.get k (sessions w) ∧
    ∀ l, JsMap.get k (sessions w) = Some l → heap w' l = heap w l.
Proof.
  intros [Hnd Hrefs _] Hids w' k Hk. subst w'.
  destruct (JsMap.get sessionId (sessions w)) as [l0|] eqn:Hget.
  - destruct (run_getOrCreateSession_hit sessionId w l0 Hget) as (_ & _ & -> & _).
    cbn. rewrite getSession_eq, Hget. cbn. split; [done|].
    intros l Hl. unfold store. case_decide as Heq; [|done]. subst l.
    destruct Hk. by rewrite <- (Hids _ _ Hl), <- (Hids _ _ Hget).
  - destruct (settles w (trace w ++ [EvNew (environments w); EvCall (environments w) Init])
                (environments w) Init) eqn:Hok.
    + destruct (run_getOrCreateSession_created sessionId w Hget Hok)
        as (w' & -> & Hs & Hh & _).
      cbn. rewrite Hs, Hh. split.
      * rewrite JsMapFacts.get_app. destruct (JsMap.get k (sessions w)); [done|].
        cbn. by rewrite decide_False.
      * intros l Hl. unfold store. rewrite decide_False; [done|].
        apply Hrefs in Hl. lia.
    + destruct (run_getOrCreateSession_miss sessionId w Hget)
        as (w' & -> & _ & _ & _ & Hrest).
      rewrite Hok in Hrest. destruct Hrest as (Hs & Hh & _). cbn. by rewrite Hs, Hh.
Qed.

(** X7: a pass of the sweep that finds no session idle for the timeout
    (an empty registry included) returns 0 and does nothing but read the
    clock: the registry and the Session objects are as before, no
    environment is called and nothing is printed. *)
Theorem sweep_without_expired_sessions_is_a_noop w :
  (∀ j k l, sessions w !! j = Some (k, l) →
     clock w (S (ticks w) + j) - lastAccessedAt (heap w l) < sessionTimeout w) →
  run cleanupExpiredSessions w =
    (Fulfilled 0%nat, with_ticks (S (ticks w) + length (sessions w)) w) ∧
  run manualCleanup w =
    (Fulfilled 0%nat, with_ticks (S (ticks w) + length (sessions w)) w).
Proof.
  intros Hfresh.
  assert (Hnone : expired_ids w (S (ticks w)) (sessions w) = []).
  { destruct (expired_ids w (S (ticks w)) (sessions w)) as [|k rest] eqn:He; [done|].
    assert (Hin : k ∈ expired_ids w (S (ticks w)) (sessions w)) by (rewrite He; left).
    apply elem_of_expired_ids in Hin as (j & l & Hj & Hle).
    specialize (Hfresh j k l Hj). lia. }
  assert (Hrun : run cleanupExpiredSessions w =
            (Fulfilled 0%nat, with_ticks (S (ticks w) + length (sessions w)) w)).
  { unfold cleanupExpiredSessions. cbn. rewrite find_expired_spec. cbn.
    rewrite (expired_ids_ext _ w) by done. rewrite Hnone. cbn. by f_equal. }
  split; [done|]. unfold manualCleanup. by rewrite run_await.
Qed.

(** ** Invariants that do not depend on the clock *)

Lemma wp_both {T1 T2 A} (I1 : T1 → World → Prop) (I2 : T2 → World → Prop)
    (p : Async A) (Q1 : T1 → Result A → World → Prop)
    (Q2 : T2 → Result A → World → Prop) : ∀ t w,
  wp I1 p Q1 t.1 w → wp I2 p Q2 t.2 w →
  wp (both I1 I2) p (λ t' r w', Q1 t'.1 r w' ∧ Q2 t'.2 r w') t w.
Proof.
  induction p as [a|err|X m k IH|e op k IH|k IH]; intros t w; cbn; auto.
  - intros [H1 K1] [H2 K2]. split; [done|]. intros t' w' ok [Hw1 Hw2]. by apply IH; auto.
  - intros [H1 K1] [H2 K2]. split; [done|]. intros t' w' [Hw1 Hw2]. by apply IH; auto.
Qed.

Lemma keeps_both {T1 T2 A} (I1 : T1 → World → Prop) (I2 : T2 → World → Prop)
    (p : Async A) :
  keeps I1 p → keeps I2 p → keeps (both I1 I2) p.
Proof.
  intros H1 H2 t w [Hw1 Hw2].
  apply (wp_both I1 I2 p (λ t' _ w', I1 t' w') (λ t' _ w', I2 t' w')); auto.
Qed.

Lemma stable_frame v w w' :
  stable v w →
  sessions w' = sessions w →
  (∀ l, (l < allocated w)%nat → id (heap w' l) = id (heap w l)) →
  (allocated w ≤ allocated w')%nat →
  constructed (trace w') = constructed (trace w) →
  calls Init (trace w') = calls Init (trace w) →
  environments w' = environments w →
  timers w' = timers w → cleanupInterval w' = cleanupInterval w →
  sessionTimeout w' = sessionTimeout w →
  stable v w'.
Proof.
  intros ([Hnd Hrefs Htm] & Hids & [Hc Hi] & Hstop & Hto) Hs Hh Ha Hc' Hi' He Hti Hci Hto'.
  split_and!.
  - constructor; rewrite ?Hs, ?Hti, ?Hci; [done| |done].
    intros k l Hg. apply Hrefs in Hg. lia.
  - intros k l Hg. rewrite Hs in Hg. rewrite Hh; eauto.
  - split; congruence.
  - by rewrite Hci.
  - congruence.
Qed.

Lemma constructed_snoc evs ev :
  constructed (evs ++ [ev]) =
  constructed evs ++ match ev with EvNew e => [e] | _ => [] end.
Proof. unfold constructed. rewrite omap_app. by destruct ev. Qed.

Lemma calls_snoc op evs ev :
  calls op (evs ++ [ev]) =
  calls op evs ++ match ev with
                  | EvCall e op' => if decide (op' = op) then [e] else []
                  | _ => []
                  end.
Proof.
  unfold calls. rewrite omap_app. destruct ev as [e|e op'|e op' ok]; cbn; try done.
  by case_decide.
Qed.

Lemma stable_emit v ev w : later_event ev → stable v w → stable v (emit ev w).
Proof.
  intros Hev H.
  assert (Hc : constructed (trace (emit ev w)) = constructed (trace w)).
  { change (trace (emit ev w)) with (trace w ++ [ev]). rewrite constructed_snoc.
    destruct ev; [done|..]; by rewrite app_nil_r. }
  assert (Hi : calls Init (trace (emit ev w)) = calls Init (trace w)).
  { change (trace (emit ev w)) with (trace w ++ [ev]). rewrite calls_snoc.
    destruct ev as [e|e op|e op ok]; cbn in *; [done|..].
    - by rewrite decide_False, app_nil_r.
    - by rewrite app_nil_r. }
  by eapply stable_frame.
Qed.

Lemma stable_print v line w : stable v w → stable v (print line w).
Proof. intros H. by eapply stable_frame. Qed.

Lemma stable_with_ticks v n w : stable v w → stable v (with_ticks n w).
Proof. intros H. by eapply stable_frame. Qed.

Lemma stable_getSession v sessionId w : stable v w → stable v (getSession sessionId w).2.
Proof.
  intros H. rewrite getSession_eq.
  destruct (JsMap.get sessionId (sessions w)) as [l|]; cbn; [|done].
  eapply stable_frame; [exact H|try done..]. cbn.
  intros l' _. unfold store. by case_decide; subst.
Qed.

Lemma stable_delete v sessionId w :
  stable v w → stable v (with_sessions (JsMap.delete sessionId) w).
Proof.
  intros ([Hnd Hrefs Htm] & Hids & Hinit & Hstop & Hto). split_and!; try done.
  - constructor; cbn; [by apply JsMapFacts.NoDup_keys_delete| |done].
    intros k l. destruct (decide (sessionId = k)) as [->|Hne].
    + by rewrite JsMapFacts.get_delete_eq.
    + rewrite JsMapFacts.get_delete_ne by done. apply Hrefs.
  - intros k l. cbn. destruct (decide (sessionId = k)) as [->|Hne].
    + by rewrite JsMapFacts.get_delete_eq.
    + rewrite JsMapFacts.get_delete_ne by done. apply Hids.
Qed.

Lemma stable_stopCleanupInterval v w :
  stable v w → stable (true, v.2) (stopCleanupInterval w).2 ∧ stable v (stopCleanupInterval w).2.
Proof.
  intros ([Hnd Hrefs Htm] & Hids & Hinit & Hstop & Hto).
  rewrite stopCleanupInterval_eq by done. cbn.
  assert (Hwf : wf (with_timers None [] (timer_count w) w)) by by constructor.
  by split; split_and!.
Qed.

(** The first synchronous segment of createSession for a new id: the
    environment is constructed and its [init] called. *)
Lemma stable_construct v w :
  stable v w →
  stable v (emit (EvCall (environments w) Init) (new_PyodidePythonEnvironment w).2).
Proof.
  intros ([Hnd Hrefs Htm] & Hids & [Hc Hi] & Hstop & Hto).
  split_and!; try done.
  unfold initialised_once.
  change (trace (emit (EvCall (environments w) Init) (new_PyodidePythonEnvironment w).2))
    with ((trace w ++ [EvNew (environments w)]) ++ [EvCall (environments w) Init]).
  change (environments (emit (EvCall (environments w) Init)
                          (new_PyodidePythonEnvironment w).2))
    with (S (environments w)).
  rewrite seq_S, !constructed_snoc, !calls_snoc, Hc, Hi. cbn.
  by rewrite !app_nil_r, decide_True.
Qed.

(** The last synchronous segment of createSession. *)
Lemma stable_register v sessionId e t1 t2 w w1 :
  stable v w →
  sessions w1 = sessions w → trace w1 = trace w → environments w1 = environments w →
  timers w1 = timers w → cleanupInterval w1 = cleanupInterval w →
  sessionTimeout w1 = sessionTimeout w →
  stable v (with_sessions (JsMap.set sessionId (allocated w))
              (with_heap (store (allocated w) (mkSession sessionId e t1 t2) (heap w))
                 (S (allocated w)) w1)).
Proof.
  intros ([Hnd Hrefs Htm] & Hids & [Hc Hi] & Hstop & Hto) Hs Htr He Hti Hci Hto'.
  split_and!.
  - constructor; cbn; rewrite ?Hs, ?Hti, ?Hci; [by apply JsMapFacts.NoDup_keys_set| |done].
    intros k l. destruct (decide (sessionId = k)) as [->|Hne].
    + rewrite JsMapFacts.get_set_eq. intros [= <-]. lia.
    + rewrite JsMapFacts.get_set_ne by done. intros Hg. apply Hrefs in Hg. lia.
  - intros k l. cbn. rewrite Hs. unfold store. destruct (decide (sessionId = k)) as [->|Hne].
    + rewrite JsMapFacts.get_set_eq. intros [= <-]. by rewrite decide_True.
    + rewrite JsMapFacts.get_set_ne by done. intros Hg.
      rewrite decide_False; [by apply Hids|]. apply Hrefs in Hg. lia.
  - split; cbn; by rewrite Htr, He.
  - cbn. by rewrite Hci.
  - cbn. by rewrite Hto'.
Qed.

Lemma createSession_stable sessionId : keeps stable (createSession sessionId).
Proof.
  intros v w H. unfold createSession. cbn.
  destruct (JsMap.has sessionId (sessions w)); cbn; [done|].
  split.
  - by apply (stable_construct v (print (Log ("Creating new session: " +:+ sessionId)) w)),
      stable_print.
  - intros v' w' [|] Hw'; cbn.
    + apply stable_print.
      by apply (stable_register v' _ _ _ _ (emit (EvSettle (environments w) Init true) w'));
        [apply stable_emit|..].
    + by apply stable_emit.
Qed.

Lemma getOrCreateSession_stable sessionId : keeps stable (getOrCreateSession sessionId).
Proof.
  intros v w H. unfold getOrCreateSession. apply wp_bind. cbn.
  pose proof (stable_getSession v sessionId w H) as H'.
  destruct (getSession sessionId w) as [[l|] w']; cbn in *; [done|].
  apply wp_await. eapply wp_mono; [|by apply createSession_stable]. by intros.
Qed.

Ltac stable_steps :=
  repeat first
    [ assumption
    | apply stable_print
    | apply stable_delete
    | apply stable_with_ticks
    | apply stable_emit; [done|] ].

Lemma removeSession_stable sessionId : keeps stable (removeSession sessionId).
Proof.
  intros v w H. unfold removeSession. cbn.
  destruct (JsMap.get sessionId (sessions w)) as [l|]; cbn; [|done].
  split; [stable_steps|].
  intros v1 w1 [|] Hw1; cbn; [|stable_steps].
  split; [stable_steps|].
  intros v2 w2 [|] Hw2; cbn; stable_steps.
Qed.

Lemma remove_each_stable sessionIds : keeps stable (remove_each sessionIds).
Proof.
  intros v w H. unfold remove_each.
  apply (wp_for_of _ _ _ stable); [done| |done].
  intros k v' w' _ Hw'. apply wp_bind, wp_await.
  eapply wp_mono; [|by apply removeSession_stable].
  intros v'' [b|err] w'' Hw''; cbn; by split.
Qed.

Lemma cleanupExpiredSessions_stable : keeps stable cleanupExpiredSessions.
Proof.
  intros v w H. unfold cleanupExpiredSessions. cbn. rewrite find_expired_spec. cbn.
  apply wp_then. case_bool_decide; cbn.
  - fold (remove_each (expired_ids (with_ticks (S (ticks w)) w) (S (ticks w)) (sessions w))).
    eapply wp_mono; [|apply remove_each_stable].
    + by intros v' [[]|err] w'.
    + stable_steps.
  - stable_steps.
Qed.

Lemma shutdown_stable : keeps stable shutdown.
Proof.
  intros v w H. unfold shutdown. cbn. apply wp_then.
  fold (remove_each (JsMap.keys (sessions (stopCleanupInterval
          (print (Log "Shutting down SessionManager...") w)).2))).
  eapply wp_mono; [|apply remove_each_stable].
  - intros v' [[]|err] w'; cbn; [|done]. apply stable_print.
  - by apply stable_stopCleanupInterval, stable_print.
Qed.

Lemma serve_stable r : keeps stable (serve r).
Proof.
  destruct r; cbn [serve]; try apply fmap_keeps.
  - apply createSession_stable.
  - intros v w Hw. cbn. by apply stable_getSession.
  - apply getOrCreateSession_stable.
  - apply removeSession_stable.
  - intros v w Hw. apply wp_await. eapply wp_mono; [|by apply cleanupExpiredSessions_stable].
    by intros.
  - apply shutdown_stable.
  - intros v w Hw. cbn. by apply stable_stopCleanupInterval.
  - intros v w Hw. by cbn.
  - intros v w Hw. change (stable v (with_ticks (S (ticks w)) w)).
    by apply stable_with_ticks.
Qed.

Lemma exec_stable schedule pool v w :
  stable v w → orderly stable pool →
  stable v (exec schedule pool w).2 ∧ orderly stable (exec schedule pool w).1.
Proof.
  apply exec_keeps; [apply serve_stable|apply fmap_keeps, cleanupExpiredSessions_stable].
Qed.

Lemma stable_new_SessionManager minutes clk out :
  stable (false, minutes * 60 * 1000) (new_SessionManager minutes (boot clk out)).2.
Proof.
  split_and!; try done.
  constructor; cbn; [constructor| |done]. intros k l. by cbn.
Qed.

Lemma exec_stable_inv schedule pool v o w :
  stable v w → inv o w → orderly (both stable inv) pool →
  stable v (exec schedule pool w).2 ∧ inv o (exec schedule pool w).2 ∧
  orderly (both stable inv) (exec schedule pool w).1.
Proof.
  intros Hs Hi Hpool.
  destruct (exec_keeps (both stable inv)
              (λ r, keeps_both _ _ _ (serve_stable r) (serve_keeps r))
              (keeps_both _ _ _ (fmap_keeps _ _ _ cleanupExpiredSessions_stable)
                 (fmap_keeps _ _ _ cleanupExpiredSessions_keeps))
              schedule pool (v, o) w) as [[? ?] ?]; [by split|done|done].
Qed.

(** ** From the construction of the manager on *)

(** X8: whatever the callers and the timer do and however their calls
    interleave, every Session object in the registry is registered under
    its own id, so no two ids ever share a Session object, and no id is
    registered twice. *)
Theorem every_session_sits_under_its_id minutes clk out schedule :
  let w := (exec schedule [] (new_SessionManager minutes (boot clk out)).2).2 in
  (∀ k l, JsMap.get k (sessions w) = Some l → id (heap w l) = k) ∧
  (∀ k k' l, JsMap.get k (sessions w) = Some l → JsMap.get k' (sessions w) = Some l →
             k = k') ∧
  NoDup (JsMap.keys (sessions w)).
Proof.
  intros w.
  destruct (exec_stable schedule [] _ _ (stable_new_SessionManager minutes clk out))
    as [([Hnd _ _] & Hids & _) _]; [constructor|].
  fold w in Hnd, Hids. split_and!; [done| |done].
  intros k k' l Hk Hk'. by rewrite <- (Hids _ _ Hk), <- (Hids _ _ Hk').
Qed.

(** X9: whatever the callers and the timer do and however their calls
    interleave, the manager calls init on every environment it constructs,
    in the order of construction, and never calls init on an environment a
    second time. *)
Theorem every_environment_is_initialised_once minutes clk out schedule :
  let w := (exec schedule [] (new_SessionManager minutes (boot clk out)).2).2 in
  constructed (trace w) = seq 0 (environments w) ∧
  calls Init (trace w) = constructed (trace w) ∧
  NoDup (calls Init (trace w)).
Proof.
  intros w.
  destruct (exec_stable schedule [] _ _ (stable_new_SessionManager minutes clk out))
    as [(_ & _ & [Hc Hi] & _) _]; [constructor|].
  fold w in Hc, Hi. rewrite Hi, Hc. split_and!; [done|done|apply NoDup_seq].
Qed.

(** X10: nothing ever arms the timer again.  Once the timer is stopped
    (by stopCleanupInterval or by shutdown), it stays stopped whatever the
    callers do afterwards, calls still in progress included: no tick starts
    a sweep any more, so sessions created after a shutdown are only ever
    swept by manualCleanup. *)
Theorem stopped_timer_is_never_restarted minutes clk out schedule schedule' :
  let s := exec schedule [] (new_SessionManager minutes (boot clk out)).2 in
  cleanupInterval s.2 = None →
  let w' := (exec schedule' s.1 s.2).2 in
  cleanupInterval w' = None ∧ timers w' = [] ∧
  ∀ h pool', act (Fire h) pool' w' = (pool', w').
Proof.
  intros s Hnone w'.
  destruct (exec_stable schedule [] _ _ (stable_new_SessionManager minutes clk out))
    as [Hst Hpool]; [constructor|].
  fold s in Hst, Hpool.
  assert (Hst' : stable (true, minutes * 60 * 1000) s.2).
  { destruct Hst as (? & ? & ? & _ & ?). by split_and!. }
  destruct (exec_stable schedule' s.1 _ s.2 Hst' Hpool) as [([_ _ Htm] & _ & _ & Hn & _) _].
  fold w' in Htm, Hn. specialize (Hn eq_refl). rewrite Hn in Htm.
  split_and!; [done|done|]. intros h pool'. unfold act. rewrite Htm.
  by rewrite bool_decide_eq_false_2 by apply not_elem_of_nil.
Qed.

Lemma filter_not_in_all {V} (m : list (string * V)) (ids : list string) :
  (∀ kv, kv ∈ m → kv.1 ∈ ids) → filter (λ kv, kv.1 ∉ ids) m = [].
Proof.
  intros Hall. induction m as [|kv m IH]; [done|].
  rewrite filter_cons, decide_False.
  - apply IH. intros kv' Hin. apply Hall. by right.
  - intros Hk. apply Hk, Hall. left.
Qed.

(** X11: the timeout is the one given to the constructor, in
    milliseconds, for as long as the manager lives; and a manager
    constructed with a timeout of zero minutes or less keeps no session past
    a sweep: with a clock that never goes back, every pass empties the
    registry, however recently the sessions were used. *)
Theorem sweep_with_zero_timeout_removes_everything minutes clk out schedule :
  clock_monotone clk →
  let w := (exec schedule [] (new_SessionManager minutes (boot clk out)).2).2 in
  sessionTimeout w = minutes * 60 * 1000 ∧
  (minutes ≤ 0 →
   sessions (run cleanupExpiredSessions w).2 = [] ∧
   (run cleanupExpiredSessions w).1 = Fulfilled (JsMap.size (sessions w))).
Proof.
  intros Hmono w.
  destruct (exec_stable_inv schedule [] _ None _
              (stable_new_SessionManager minutes clk out)
              (inv_new_SessionManager minutes clk out Hmono))
    as ((_ & _ & _ & _ & Hto) & ([Hnd Hrefs _] & _ & Hts & _) & _); [constructor|].
  fold w in Hto, Hnd, Hrefs, Hts. cbn in Hto. split; [done|].
  intros Hmin.
  destruct (run_cleanupExpiredSessions w Hnd) as (evss & lines & Hrun & _).
  cbn zeta in Hrun. rewrite Hrun. cbn.
  assert (Hall : ∀ kv, kv ∈ sessions w → kv.1 ∈ expired_ids w (S (ticks w)) (sessions w)).
  { intros [k l] Hin. apply list_elem_of_lookup_1 in Hin as [j Hj].
    apply (expired_ids_judged w (S (ticks w)) k l j Hnd Hj).
    assert (Hl : (l < allocated w)%nat).
    { apply (Hrefs k), JsMapFacts.elem_get; [done|]. by eapply list_elem_of_lookup_2. }
    destruct (Hts l Hl) as [_ Hpast].
    assert (Hp : lastAccessedAt (heap w l) ≤ clock w (S (ticks w) + j))
      by (apply Hpast; lia).
    rewrite Hto. lia. }
  split; [by apply filter_not_in_all|].
  f_equal. pose proof (length_filter_not_in (sessions w) _ Hnd
                         (expired_ids_sublist w (sessions w) (S (ticks w)))) as Hlen.
  rewrite (filter_not_in_all _ _ Hall) in Hlen. cbn in Hlen. by rewrite Hlen.
Qed.

(** X12: getSessionsInfo lists every session of the registry, in the
    order of the registry and under the id it is registered with, and
    /health counts as many; it reads the clock once and changes nothing
    else, so listing the sessions does not count as using them.  With a
    clock that never goes back, no session is reported idle for a negative
    time or for longer than its age. *)
Theorem getSessionsInfo_lists_the_registry minutes clk out schedule :
  clock_monotone clk →
  let w := (exec schedule [] (new_SessionManager minutes (boot clk out)).2).2 in
  let infos := (getSessionsInfo w).1 in
  Info.id <$> infos = JsMap.keys (sessions w) ∧
  (health w).1 = ("healthy", length infos) ∧
  (sessions_route w).2 = with_ticks (S (ticks w)) w ∧
  Forall (λ i, (0 <= Info.idleMinutes i)%Q ∧
               (Info.idleMinutes i <= Info.ageMinutes i)%Q) infos.
Proof.
  intros Hmono w.
  destruct (exec_stable_inv schedule [] _ None _
              (stable_new_SessionManager minutes clk out)
              (inv_new_SessionManager minutes clk out Hmono))
    as ((_ & Hids & _) & ([Hnd Hrefs _] & _ & Hts & _) & _); [constructor|].
  fold w in Hids, Hnd, Hrefs, Hts.
  change (getSessionsInfo w).1 with
    ((λ kv : string * loc,
        let session : Session := heap w kv.2 in
        Info.mk (id session) (createdAt session) (lastAccessedAt session)
          (Qmake (clock w (ticks w) - createdAt session) (60 * 1000))
          (Qmake (clock w (ticks w) - lastAccessedAt session) (60 * 1000)))
       <$> sessions w).
  split_and!; [| |done|].
  - rewrite <- list_fmap_compose. unfold JsMap.keys.
    apply Forall_fmap_ext_1, Forall_forall. intros [k l] Hin. cbn. apply Hids. by apply JsMapFacts.elem_get.
  - unfold JsMap.size. by rewrite length_fmap.
  - apply Forall_fmap, Forall_forall. intros [k l] Hin. cbn.
    assert (Hl : (l < allocated w)%nat) by (by apply (Hrefs k), JsMapFacts.elem_get).
    destruct (Hts l Hl) as [Hca Hpast]. specialize (Hpast (ticks w) (le_n _)).
    unfold Qle. cbn. lia.
Qed.

(** ** Calls that always complete *)

Lemma wp_within_mono {A} (p : Async A) (Q Q' : Result A → World → Prop) : ∀ n n' w,
  (∀ r w', Q r w' → Q' r w') → (n ≤ n')%nat →
  wp_within p Q n w → wp_within p Q' n' w.
Proof.
  induction p as [a|err|X m k IH|e op k IH|k IH]; intros n n' w HQ Hn; cbn; auto.
  - by apply IH.
  - destruct n as [|n]; [done|]. destruct n' as [|n']; [lia|].
    intros H w' ok. eapply IH; [done| |apply H]. lia.
  - destruct n as [|n]; [done|]. destruct n' as [|n']; [lia|].
    intros H w'. eapply IH; [done| |apply H]. lia.
Qed.

Lemma wp_within_then {A B} (f : A → Async B) (p : Async A)
    (Q : Result B → World → Prop) n2 : ∀ n1 w,
  wp_within p (λ r w', match r with
                       | Fulfilled a => wp_within (f a) Q n2 w'
                       | Rejected err => Q (Rejected err) w'
                       end) n1 w →
  wp_within (Async_then f p) Q (n1 + n2) w.
Proof.
  induction p as [a|err|X m k IH|e op k IH|k IH]; intros n1 w; cbn; auto.
  - apply wp_within_mono; [done|lia].
  - destruct n1 as [|n1]; [done|]. cbn. intros H w' ok. apply IH, H.
  - destruct n1 as [|n1]; [done|]. cbn. intros H w'. apply IH, H.
Qed.

Lemma wp_within_bind {A B} (f : A → Async B) (p : Async A)
    (Q : Result B → World → Prop) n1 n2 w :
  wp_within p (λ r w', match r with
                       | Fulfilled a => wp_within (f a) Q n2 w'
                       | Rejected err => Q (Rejected err) w'
                       end) n1 w →
  wp_within (p ≫= f) Q (n1 + n2) w.
Proof. apply wp_within_then. Qed.

Lemma wp_within_await {A} (p : Async A) (Q : Result A → World → Prop) : ∀ n w,
  wp_within p (λ r _, ∀ w', Q r w') n w → wp_within (await p) Q (S n) w.
Proof.
  induction p as [a|err|X m k IH|e op k IH|k IH]; intros n w; cbn; auto.
  - destruct n as [|n]; [done|]. intros H w' ok. apply IH, H.
  - destruct n as [|n]; [done|]. intros H w'. apply IH, H.
Qed.

Lemma wp_within_for_of {X} (xs : list X) body (Q : Result () → World → Prop) n :
  (∀ x w, wp_within (body x) (λ r _, fulfilled r) n w) →
  (∀ w, Q (Fulfilled ()) w) →
  ∀ w, wp_within (for_of xs body) Q (length xs * n) w.
Proof.
  intros Hbody Hend. induction xs as [|x xs IH]; intros w; cbn; [done|].
  apply wp_within_then. eapply wp_within_mono; [|done|apply Hbody].
  intros [[]|err] w'; [|done]. intros _. apply IH.
Qed.

Lemma wp_within_ends {A} (p : Async A) (Q : Result A → World → Prop) : ∀ n w,
  wp_within p Q n w → always_ends n Q p w.
Proof.
  unfold always_ends.
  induction p as [a|err|X m k IH|e op k IH|k IH]; intros n w; cbn; auto.
  - intros H. specialize (IH _ _ _ H). by destruct (m w).
  - destruct n as [|n]; [done|]. intros H w1. cbn. unfold settle.
    specialize (IH _ _ _ (H (w1) (settles w1 (trace w1) e op))).
    by destruct (advance _ _) as [[]].
  - destruct n as [|n]; [done|]. intros H w1. cbn.
    specialize (IH _ _ (H w1)). by destruct (advance _ _) as [[]].
Qed.

Lemma removeSession_within sessionId w :
  wp_within (removeSession sessionId) (λ r _, fulfilled r) 2 w.
Proof.
  unfold removeSession. cbn. destruct (JsMap.get sessionId (sessions w)); cbn; [|done].
  intros w1 [|]; cbn; [|done]. by intros w2 [|].
Qed.

Lemma remove_each_within sessionIds (Q : Result () → World → Prop) w :
  (∀ w', Q (Fulfilled ()) w') →
  wp_within (remove_each sessionIds) Q (length sessionIds * 3) w.
Proof.
  intros HQ. apply wp_within_for_of; [|done].
  intros k w'. change 3%nat with (3 + 0)%nat. apply wp_within_bind.
  apply wp_within_await. eapply wp_within_mono; [|done|apply removeSession_within].
  by intros [b|err] w''.
Qed.

Lemma shutdown_within w :
  wp_within shutdown (λ r _, r = Fulfilled ())
    (length (JsMap.keys (sessions w)) * 3 + 0) w.
Proof.
  unfold shutdown. cbn. apply wp_within_then. unfold stopCleanupInterval. cbn.
  destruct (cleanupInterval w); cbn;
    fold (remove_each (JsMap.keys (sessions w))); by apply remove_each_within.
Qed.

(** X13: a pass of the sweep and a shutdown always complete and never
    throw, whatever the environments do and whatever else runs while they
    are suspended: each session they set out to remove costs at most three
    turns.  The number the sweep returns is the number of sessions it
    selected when it started, whatever became of them in the meantime. *)
Theorem sweep_and_shutdown_always_complete w :
  let n := length (expired_ids w (S (ticks w)) (sessions w)) in
  always_ends (3 * n) (λ r _, r = Fulfilled n) cleanupExpiredSessions w ∧
  always_ends (3 * n + 1) (λ r _, r = Fulfilled n) manualCleanup w ∧
  always_ends (3 * JsMap.size (sessions w)) (λ r _, r = Fulfilled ()) shutdown w.
Proof.
  intros n.
  assert (Hsweep : wp_within cleanupExpiredSessions (λ r _, r = Fulfilled n)
                     (n * 3 + 0) w).
  { unfold cleanupExpiredSessions. cbn. rewrite find_expired_spec. cbn.
    rewrite (expired_ids_ext _ w) by done. fold n.
    apply wp_within_then. case_bool_decide; cbn.
    - fold (remove_each (expired_ids w (S (ticks w)) (sessions w))).
      by apply remove_each_within.
    - by destruct (n * 3)%nat. }
  split_and!.
  - apply wp_within_ends. eapply wp_within_mono; [| |exact Hsweep]; [by intros|lia].
  - apply wp_within_ends. replace (3 * n + 1)%nat with (S (3 * n)) by lia.
    apply wp_within_await. eapply wp_within_mono; [| |exact Hsweep]; [by intros|lia].
  - apply wp_within_ends. eapply wp_within_mono; [| |apply shutdown_within]; [done|].
    unfold JsMap.size, JsMap.keys. rewrite length_fmap. lia.
Qed.

(** X14: getOrCreateSession never fails with "already exists", although
    it goes through createSession: the lookup that missed and the check of
    createSession run in the same turn.  Whatever else runs while it is
    suspended, it ends within two more turns, and the only error it can
    throw is what the init of the environment it constructed threw. *)
Theorem getOrCreateSession_never_finds_the_id_taken sessionId w :
  always_ends 2
    (λ r _, match r with
            | Fulfilled _ => True
            | Rejected err => err = EnvFailure (environments w) Init
            end)
    (getOrCreateSession sessionId) w.
Proof.
  apply wp_within_ends. unfold getOrCreateSession. cbn. rewrite getSession_eq.
  destruct (JsMap.get sessionId (sessions w)) as [l|] eqn:Hget; cbn; [done|].
  unfold createSession. cbn.
  rewrite (proj2 (JsMapFacts.has_false _ _) Hget). cbn.
  by intros w1 [|]; cbn.
Qed.

(** ** The further statements on the scenarios *)

Ltac ids_ok_by_computation :=
  match goal with
  | |- ids_ok ?W =>
      let ss := eval vm_compute in (sessions W) in
      let Hget := fresh "Hget" in
      intros ? ? Hget; apply JsMapFacts.get_Some_elem in Hget;
      replace (sessions W) with ss in Hget by (vm_compute; reflexivity);
      repeat (apply elem_of_cons in Hget as [Hget|Hget];
              [injection Hget as -> ->; vm_compute; reflexivity|]);
      by apply elem_of_nil in Hget
  end.

Lemma createSession_existing_id_throws_witness :
  let w := one_session (ticking 1) all_well in
  JsMap.get "s1" (sessions w) = Some 0%nat ∧
  run (createSession "s1") w = (Rejected (AlreadyExists "s1"), w).
Proof.
  intros w. assert (Hget : JsMap.get "s1" (sessions w) = Some 0%nat) by reflexivity.
  split; [exact Hget|].
  exact (proj1 (createSession_existing_id_throws "s1" w 0%nat Hget)).
Defined.

Lemma count_follows_the_registry_witness :
  let w := two_sessions (ticking 1) all_well in
  wf w ∧
  (getActiveSessionCount (run (getOrCreateSession "s1") w).2).1 = 2%nat ∧
  (getActiveSessionCount (run (removeSession "s1") w).2).1 = 1%nat.
Proof.
  intros w. assert (Hwf : wf w) by (subst w; wf_by_computation).
  split; [exact Hwf|].
  pose proof (count_follows_the_registry "s1" w Hwf) as H. cbv zeta in H.
  change (JsMap.get "s1" (sessions w)) with (Some 0%nat) in H. cbv iota in H.
  destruct H as [Hhit Hrm]. split.
  - rewrite Hhit. reflexivity.
  - exact (f_equal Nat.pred Hrm).
Defined.

Lemma lookup_after_creation_returns_the_session_witness :
  let w := sessionManager (ticking 1) all_well in
  JsMap.get "s1" (sessions w) = None ∧
  settles w (trace w ++ [EvNew 0%nat; EvCall 0%nat Init]) 0%nat Init = true ∧
  ∃ session w1 w2,
    run (getOrCreateSession "s1") w = (Fulfilled session, w1) ∧
    run (getOrCreateSession "s1") w1 = (Fulfilled session, w2) ∧
    environments w2 = environments w1.
Proof.
  intros w. assert (Hget : JsMap.get "s1" (sessions w) = None) by reflexivity.
  assert (Hok : settles w (trace w ++ [EvNew 0%nat; EvCall 0%nat Init]) 0%nat Init
                = true) by reflexivity.
  split_and!; [exact Hget|exact Hok|].
  destruct (lookup_after_creation_returns_the_session "s1" w Hget Hok)
    as (session & w1 & w2 & Hrun & _ & _ & Hrun2 & He & _).
  exists session, w1, w2. split_and!; [exact Hrun|exact Hrun2|exact He].
Defined.

Lemma removed_session_is_not_revived_witness :
  let w := one_session (ticking 1) all_well in
  wf w ∧ JsMap.get "s1" (sessions w) = Some 0%nat ∧
  ∃ w1, run (removeSession "s1") w = (Fulfilled true, w1) ∧
        getSession "s1" w1 = (None, w1).
Proof.
  intros w. assert (Hwf : wf w) by (subst w; wf_by_computation).
  assert (Hget : JsMap.get "s1" (sessions w) = Some 0%nat) by reflexivity.
  split_and!; [exact Hwf|exact Hget|].
  destruct (removed_session_is_not_revived "s1" w 0%nat Hwf Hget)
    as (w1 & Hrun & Hgone & _).
  exists w1. split; [exact Hrun|exact Hgone].
Defined.

Lemma getOrCreateSession_leaves_the_other_sessions_witness :
  let w := two_sessions (ticking 1) all_well in
  wf w ∧ ids_ok w ∧
  JsMap.get "s2" (sessions (run (getOrCreateSession "s1") w).2)
  = JsMap.get "s2" (sessions w).
Proof.
  intros w. assert (Hwf : wf w) by (subst w; wf_by_computation).
  assert (Hids : ids_ok w) by (subst w; ids_ok_by_computation).
  split_and!; [exact Hwf|exact Hids|].
  pose proof (getOrCreateSession_leaves_the_other_sessions "s1" w Hwf Hids) as H.
  cbv zeta in H. destruct (H "s2") as [Hsame _]; [intros [=]|]. exact Hsame.
Defined.

Lemma sweep_without_expired_sessions_is_a_noop_witness :
  let w := two_sessions (ticking 1) all_well in
  (∀ j k l, sessions w !! j = Some (k, l) →
     clock w (S (ticks w) + j) - lastAccessedAt (heap w l) < sessionTimeout w) ∧
  run cleanupExpiredSessions w =
    (Fulfilled 0%nat, with_ticks (S (ticks w) + length (sessions w)) w).
Proof.
  intros w.
  assert (Hfresh : ∀ j k l, sessions w !! j = Some (k, l) →
            clock w (S (ticks w) + j) - lastAccessedAt (heap w l) < sessionTimeout w).
  { intros j k l Hj. destruct j as [|[|j]]; vm_compute in Hj; simplify_eq;
      vm_compute; reflexivity. }
  split; [exact Hfresh|].
  exact (proj1 (sweep_without_expired_sessions_is_a_noop w Hfresh)).
Defined.

Lemma stopped_timer_is_never_restarted_witness :
  let s := exec [Incoming CallShutdown] []
             (new_SessionManager 1 (boot (ticking 1) all_well)).2 in
  cleanupInterval s.2 = None ∧
  let w' := (exec [Incoming (CallGetOrCreateSession "s1"); Fire 0%nat] s.1 s.2).2 in
  cleanupInterval w' = None ∧ timers w' = [] ∧
  ∀ h pool', act (Fire h) pool' w' = (pool', w').
Proof.
  intros s. assert (Hnone : cleanupInterval s.2 = None) by reflexivity.
  split; [exact Hnone|].
  exact (stopped_timer_is_never_restarted 1 (ticking 1) all_well
           [Incoming CallShutdown]
           [Incoming (CallGetOrCreateSession "s1"); Fire 0%nat] Hnone).
Defined.

Lemma sweep_with_zero_timeout_removes_everything_witness :
  clock_monotone (ticking 1) ∧
  let w := (exec [Incoming (CallGetOrCreateSession "s1"); Turn 0; Turn 0] []
              (new_SessionManager 0 (boot (ticking 1) all_well)).2).2 in
  sessions (run cleanupExpiredSessions w).2 = [] ∧
  (run cleanupExpiredSessions w).1 = Fulfilled (JsMap.size (sessions w)).
Proof.
  assert (Hmono : clock_monotone (ticking 1)) by (intros n m Hnm; unfold ticking; lia).
  split; [exact Hmono|]. intros w.
  pose proof (sweep_with_zero_timeout_removes_everything 0 (ticking 1) all_well
                [Incoming (CallGetOrCreateSession "s1"); Turn 0; Turn 0] Hmono) as H.
  cbv zeta in H. destruct H as [_ H]. exact (H (Z.le_refl 0)).
Defined.

Lemma getSessionsInfo_lists_the_registry_witness :
  clock_monotone (ticking 1) ∧
  let w := (exec [Incoming (CallGetOrCreateSession "s1"); Turn 0; Turn 0] []
              (new_SessionManager 1 (boot (ticking 1) all_well)).2).2 in
  let infos := (getSessionsInfo w).1 in
  Info.id <$> infos = JsMap.keys (sessions w) ∧
  (health w).1 = ("healthy", length infos) ∧
  (sessions_route w).2 = with_ticks (S (ticks w)) w ∧
  Forall (λ i, (0 <= Info.idleMinutes i)%Q ∧
               (Info.idleMinutes i <= Info.ageMinutes i)%Q) infos.
Proof.
  assert (Hmono : clock_monotone (ticking 1)) by (intros n m Hnm; unfold ticking; lia).
  split; [exact Hmono|].
  exact (getSessionsInfo_lists_the_registry 1 (ticking 1) all_well
           [Incoming (CallGetOrCreateSession "s1"); Turn 0; Turn 0] Hmono).
Defined.

(** * The teardown, the sweep and shutdown among other calls *)

(** ** A Session object keeps its environment *)

Lemma kept_frame o w w' :
  environment_kept o w → (allocated w ≤ allocated w')%nat →
  (∀ l, (l < allocated w)%nat → environment (heap w' l) = environment (heap w l)) →
  environment_kept o w'.
Proof.
  destruct o as [[l e]|]; [|done]. intros [Hl He] Ha Hh. split; [lia|]. by rewrite Hh.
Qed.

Lemma kept_getSession o sessionId w :
  environment_kept o w → environment_kept o (getSession sessionId w).2.
Proof.
  intros H. rewrite getSession_eq.
  destruct (JsMap.get sessionId (sessions w)) as [l|]; cbn; [|done].
  eapply kept_frame; [exact H|done|]. intros l' _. cbn. unfold store.
  by case_decide; subst.
Qed.

Lemma kept_stopCleanupInterval o w :
  environment_kept o w → environment_kept o (stopCleanupInterval w).2.
Proof. unfold stopCleanupInterval. by destruct (cleanupInterval w). Qed.

Lemma createSession_kept sessionId : keeps environment_kept (createSession sessionId).
Proof.
  intros o w H. unfold createSession. cbn.
  destruct (JsMap.has sessionId (sessions w)); cbn; [done|].
  split; [exact H|].
  intros o' w' [|] Hw'; cbn; [|exact Hw'].
  eapply kept_frame; [exact Hw'|cbn; lia|].
  intros l Hl. cbn. unfold store. by rewrite decide_False by lia.
Qed.

Lemma getOrCreateSession_kept sessionId :
  keeps environment_kept (getOrCreateSession sessionId).
Proof.
  intros o w H. unfold getOrCreateSession. apply wp_bind. cbn.
  pose proof (kept_getSession o sessionId w H) as H'.
  destruct (getSession sessionId w) as [[l|] w']; cbn in *; [done|].
  apply wp_await. eapply wp_mono; [|by apply createSession_kept]. by intros.
Qed.

Lemma removeSession_kept sessionId : keeps environment_kept (removeSession sessionId).
Proof.
  intros o w H. unfold removeSession. cbn.
  destruct (JsMap.get sessionId (sessions w)) as [l|]; cbn; [|done].
  split; [exact H|].
  intros o1 w1 [|] Hw1; cbn; [|exact Hw1].
  split; [exact Hw1|].
  intros o2 w2 [|] Hw2; cbn; exact Hw2.
Qed.

Lemma remove_each_kept sessionIds : keeps environment_kept (remove_each sessionIds).
Proof.
  intros o w H. unfold remove_each.
  apply (wp_for_of _ _ _ environment_kept); [done| |done].
  intros k o' w' _ Hw'. apply wp_bind, wp_await.
  eapply wp_mono; [|by apply removeSession_kept].
  intros o'' [b|err] w'' Hw''; cbn; by split.
Qed.

Lemma cleanupExpiredSessions_kept : keeps environment_kept cleanupExpiredSessions.
Proof.
  intros o w H. unfold cleanupExpiredSessions. cbn. rewrite find_expired_spec. cbn.
  apply wp_then. case_bool_decide; cbn; [|exact H].
  fold (remove_each (expired_ids (with_ticks (S (ticks w)) w) (S (ticks w)) (sessions w))).
  eapply wp_mono; [|apply remove_each_kept; exact H].
  by intros o' [[]|err] w'.
Qed.

Lemma shutdown_kept : keeps environment_kept shutdown.
Proof.
  intros o w H. unfold shutdown. cbn. apply wp_then.
  fold (remove_each (JsMap.keys (sessions (stopCleanupInterval
          (print (Log "Shutting down SessionManager...") w)).2))).
  eapply wp_mono; [|apply remove_each_kept].
  - by intros o' [[]|err] w'.
  - by apply kept_stopCleanupInterval.
Qed.

Lemma serve_kept r : keeps environment_kept (serve r).
Proof.
  destruct r; cbn [serve]; try apply fmap_keeps.
  - apply createSession_kept.
  - intros o w Hw. cbn. by apply kept_getSession.
  - apply getOrCreateSession_kept.
  - apply removeSession_kept.
  - intros o w Hw. apply wp_await. eapply wp_mono; [|by apply cleanupExpiredSessions_kept].
    by intros.
  - apply shutdown_kept.
  - intros o w Hw. cbn. by apply kept_stopCleanupInterval.
  - intros o w Hw. by cbn.
  - intros o w Hw. exact Hw.
Qed.

(** Whatever the callers and the timer do and however their calls
    interleave, from the construction of the manager on, a Session object
    keeps the environment it was created with. *)
Lemma session_objects_keep_their_environment minutes clk out schedule schedule' :
  let s := exec schedule [] (new_SessionManager minutes (boot clk out)).2 in
  ∀ l, (l < allocated s.2)%nat →
    environment (heap (exec schedule' s.1 s.2).2 l) = environment (heap s.2 l).
Proof.
  intros s l Hl.
  assert (Hkeeps : ∀ sched pool o w, environment_kept o w → orderly environment_kept pool →
            environment_kept o (exec sched pool w).2 ∧
            orderly environment_kept (exec sched pool w).1).
  { intros sched. apply exec_keeps; [apply serve_kept|].
    apply fmap_keeps, cleanupExpiredSessions_kept. }
  destruct (Hkeeps schedule [] None (new_SessionManager minutes (boot clk out)).2)
    as [_ Hpool]; [done|constructor|].
  fold s in Hpool.
  destruct (Hkeeps schedule' s.1 (Some (l, environment (heap s.2 l))) s.2)
    as [[_ He] _]; [by split|done|]. exact He.
Qed.

(** ** What a removal prints *)

Lemma run_removeSession_lines sessionId w l :
  JsMap.get sessionId (sessions w) = Some l →
  let e := environment (heap w l) in
  let ok := settles w (trace w ++ [EvCall e Terminate]) e Terminate in
  ∃ ok',
    let evs := [EvCall e Terminate; EvSettle e Terminate ok]
               ++ (if ok then [EvCall e Cleanup; EvSettle e Cleanup ok'] else []) in
    run (removeSession sessionId) w =
      (Fulfilled true,
       removed w (JsMap.delete sessionId (sessions w)) evs (removal_lines sessionId evs)).
Proof.
  intros H e ok. unfold removeSession. cbn. rewrite H. cbn. unfold settle. cbn.
  fold e. fold ok. destruct ok eqn:E1; cbn.
  - destruct (settles w _ _ Cleanup) eqn:E2; cbn.
    + exists true. f_equal. same_world.
    + exists false. f_equal. same_world.
  - exists false. f_equal. same_world.
Qed.

Lemma run_remove_each_lines sessionIds : ∀ w,
  NoDup sessionIds →
  (∀ k, k ∈ sessionIds → is_Some (JsMap.get k (sessions w))) →
  ∃ evss,
    run (remove_each sessionIds) w =
      (Fulfilled (),
       removed w (filter (λ kv, kv.1 ∉ sessionIds) (sessions w)) (concat evss)
         (concat (zip_with removal_lines sessionIds evss))) ∧
    Forall2 (λ k evs, ∃ l, JsMap.get k (sessions w) = Some l ∧
                           teardown_events (environment (heap w l)) evs)
      sessionIds evss.
Proof.
  induction sessionIds as [|k rest IH]; intros w Hnd Hin.
  - exists []. split; [|constructor]. cbn.
    by rewrite filter_not_in_nil, removed_id.
  - apply NoDup_cons in Hnd as [Hk Hnd].
    destruct (Hin k) as [l Hl]; [left|].
    destruct (run_removeSession_lines k w l Hl) as (ok' & Hrun). cbn zeta in Hrun.
    set (evs := [EvCall (environment (heap w l)) Terminate;
                 EvSettle (environment (heap w l)) Terminate
                   (settles w (trace w ++ [EvCall (environment (heap w l)) Terminate])
                      (environment (heap w l)) Terminate)] ++ _) in Hrun.
    assert (Htd : teardown_events (environment (heap w l)) evs).
    { subst evs. destruct (settles w _ _ Terminate); [right; by eexists|by left]. }
    clearbody evs.
    destruct (IH (removed w (JsMap.delete k (sessions w)) evs (removal_lines k evs)) Hnd)
      as (evss & Hrest & Hall).
    { intros k' Hk'. cbn. rewrite JsMapFacts.get_delete_ne by (intros ->; done).
      apply Hin. by right. }
    exists (evs :: evss). split.
    + unfold remove_each in *. cbn [for_of]. rewrite run_bind, run_bind, run_await, Hrun.
      cbn [run]. rewrite Hrest, removed_removed.
      cbn [sessions removed concat zip_with]. do 2 f_equal.
      unfold JsMap.delete. rewrite list_filter_filter. apply list_filter_iff.
      intros [k' l']. cbn. rewrite not_elem_of_cons. tauto.
    + constructor; [by exists l|].
      eapply Forall2_impl; [apply Hall|]. cbn. intros k' evs' (l' & Hl' & Htd').
      exists l'. split; [|done].
      destruct (decide (k = k')) as [->|Hne].
      * by rewrite JsMapFacts.get_delete_eq in Hl'.
      * by rewrite JsMapFacts.get_delete_ne in Hl'.
Qed.

Lemma run_sweep_lines w :
  NoDup (JsMap.keys (sessions w)) →
  let expiredSessions := expired_ids w (S (ticks w)) (sessions w) in
  ∃ evss,
    run cleanupExpiredSessions w =
      (Fulfilled (length expiredSessions),
       removed (with_ticks (S (ticks w) + length (sessions w)) w)
         (filter (λ kv, kv.1 ∉ expiredSessions) (sessions w)) (concat evss)
         ((if bool_decide (0 < length expiredSessions)%nat
           then [Log ("Cleaning up " +:+ pretty (length expiredSessions)
                        +:+ " expired session(s)")]
           else [])
          ++ concat (zip_with removal_lines expiredSessions evss))) ∧
    Forall2 (λ k evs, ∃ l, JsMap.get k (sessions w) = Some l ∧
                           teardown_events (environment (heap w l)) evs)
      expiredSessions evss.
Proof.
  intros Hnd expiredSessions.
  assert (Hsub : sublist expiredSessions (JsMap.keys (sessions w)))
    by apply expired_ids_sublist.
  unfold cleanupExpiredSessions. cbn. rewrite find_expired_spec. cbn.
  rewrite (expired_ids_ext _ w) by done. fold expiredSessions.
  rewrite run_then.
  destruct (bool_decide_reflect (0 < length expiredSessions)%nat) as [Hpos|Hz].
  - destruct (run_remove_each_lines expiredSessions
                (print (Log ("Cleaning up " +:+ pretty (length expiredSessions)
                              +:+ " expired session(s)"))
                   (with_ticks (S (ticks w + length (sessions w)))
                      (with_ticks (S (ticks w)) w))))
      as (evss & Hrun & Hall).
    { eapply sublist_NoDup; eauto. }
    { intros k Hk. cbn. apply (elem_of_sublist _ _ _ Hk) in Hsub.
      apply not_eq_None_Some. by intros Hn%JsMapFacts.get_None. }
    exists evss. split; [|done]. cbn. fold (remove_each expiredSessions).
    rewrite Hrun. cbn. f_equal. same_world.
  - assert (expiredSessions = []) as -> by (destruct expiredSessions; [done|cbn in Hz; lia]).
    exists []. split; [|constructor]. cbn. f_equal.
    rewrite filter_not_in_nil. same_world.
Qed.

Lemma run_shutdown_lines w :
  wf w →
  ∃ evss,
    run shutdown w =
      (Fulfilled (),
       removed (with_timers None [] (timer_count w) w) [] (concat evss)
         ([Log "Shutting down SessionManager..."]
          ++ concat (zip_with removal_lines (JsMap.keys (sessions w)) evss)
          ++ [Log "SessionManager shutdown complete"])) ∧
    Forall2 (λ k evs, ∃ l, JsMap.get k (sessions w) = Some l ∧
                           teardown_events (environment (heap w l)) evs)
      (JsMap.keys (sessions w)) evss.
Proof.
  intros [Hnd Hrefs Htm]. unfold shutdown. cbn.
  rewrite stopCleanupInterval_eq by done. cbn. rewrite run_bind.
  set (w0 := with_timers None [] (timer_count w)
               (print (Log "Shutting down SessionManager...") w)).
  fold (remove_each (JsMap.keys (sessions w))).
  destruct (run_remove_each_lines (JsMap.keys (sessions w)) w0) as (evss & Hrun & Hall);
    [done| |].
  { intros k Hk. apply not_eq_None_Some. by intros Hn%JsMapFacts.get_None. }
  unfold remove_each in Hrun. change ((sessions w).*1) with (JsMap.keys (sessions w)).
  rewrite Hrun. cbn.
  exists evss. split; [|done]. f_equal. rewrite filter_not_in_keys. same_world.
Qed.

(** C2 (as amended): a call of removeSession for a present id calls
    terminate on the environment of the session it found and then, only
    when terminate succeeded, cleanup on the same environment; a failure of
    terminate skips cleanup.  A failure of either is caught and printed with
    console.error, and the call still deletes the entry of the id and
    returns true.  This is so step by step, whatever ran while the call was
    suspended, as long as the Session object has kept its environment; and
    so for the call run without interruption.  A sweep and a shutdown that
    run without interruption tear down in this way each session they
    remove, in the order of the registry, and print each failure. *)
Theorem teardown_stops_at_the_first_failure w :
  wf w →
  (∀ sessionId l, JsMap.get sessionId (sessions w) = Some l →
     let e := environment (heap w l) in
     let failed op :=
       ErrorLine ("Error cleaning up session " +:+ sessionId +:+ ":") (EnvFailure e op) in
     let removed_line := Log ("Session removed: " +:+ sessionId) in
     (∃ k1 w0,
        advance (removeSession sessionId) w = (Waiting e Terminate k1, w0) ∧
        trace w0 = trace w ++ [EvCall e Terminate] ∧
        console w0 = console w ++ [Log ("Removing session: " +:+ sessionId)] ∧
        sessions w0 = sessions w ∧
        ∀ w1, environment (heap w1 l) = e →
          if settles w1 (trace w1) e Terminate
          then
            ∃ k2 w2,
              resume (Waiting e Terminate k1) w1 = (Waiting e Cleanup k2, w2) ∧
              trace w2 = trace w1 ++ [EvSettle e Terminate true; EvCall e Cleanup] ∧
              console w2 = console w1 ∧ sessions w2 = sessions w1 ∧
              ∀ w3,
                let ok' := settles w3 (trace w3) e Cleanup in
                ∃ w4,
                  resume (Waiting e Cleanup k2) w3 = (Done (Fulfilled true), w4) ∧
                  trace w4 = trace w3 ++ [EvSettle e Cleanup ok'] ∧
                  console w4 = console w3 ++ (if ok' then [] else [failed Cleanup])
                                          ++ [removed_line] ∧
                  sessions w4 = JsMap.delete sessionId (sessions w3)
          else
            ∃ w2,
              resume (Waiting e Terminate k1) w1 = (Done (Fulfilled true), w2) ∧
              trace w2 = trace w1 ++ [EvSettle e Terminate false] ∧
              console w2 = console w1 ++ [failed Terminate; removed_line] ∧
              sessions w2 = JsMap.delete sessionId (sessions w1)) ∧
     (let ok := settles w (trace w ++ [EvCall e Terminate]) e Terminate in
      ∃ ok',
        let evs := [EvCall e Terminate; EvSettle e Terminate ok]
                   ++ (if ok then [EvCall e Cleanup; EvSettle e Cleanup ok'] else []) in
        run (removeSession sessionId) w =
          (Fulfilled true,
           removed w (JsMap.delete sessionId (sessions w)) evs
             (removal_lines sessionId evs)) ∧
        calls Cleanup (trace (run (removeSession sessionId) w).2) =
          calls Cleanup (trace w) ++ (if ok then [e] else []))) ∧
  (let expiredSessions := expired_ids w (S (ticks w)) (sessions w) in
   ∃ evss,
     trace (run cleanupExpiredSessions w).2 = trace w ++ concat evss ∧
     Forall2 (λ k evs, ∃ l, JsMap.get k (sessions w) = Some l ∧
                            teardown_events (environment (heap w l)) evs)
       expiredSessions evss ∧
     console (run cleanupExpiredSessions w).2 =
       console w
       ++ (if bool_decide (0 < length expiredSessions)%nat
           then [Log ("Cleaning up " +:+ pretty (length expiredSessions)
                        +:+ " expired session(s)")]
           else [])
       ++ concat (zip_with removal_lines expiredSessions evss)) ∧
  (∃ evss,
     trace (run shutdown w).2 = trace w ++ concat evss ∧
     Forall2 (λ k evs, ∃ l, JsMap.get k (sessions w) = Some l ∧
                            teardown_events (environment (heap w l)) evs)
       (JsMap.keys (sessions w)) evss ∧
     console (run shutdown w).2 =
       console w ++ [Log "Shutting down SessionManager..."]
       ++ concat (zip_with removal_lines (JsMap.keys (sessions w)) evss)
       ++ [Log "SessionManager shutdown complete"]).
Proof.
  intros Hwf. split_and!.
  - intros sessionId l Hget e failed removed_line. split.
    + unfold removeSession. cbn. rewrite Hget. cbn. fold e.
      eexists _, _. split; [reflexivity|]. cbn. split_and!; try done.
      intros w1 He. unfold settle. cbn.
      destruct (settles w1 (trace w1) e Terminate); cbn.
      * rewrite He. eexists _, _. split; [reflexivity|]. cbn.
        rewrite <- !app_assoc. split_and!; try done.
        intros w3. unfold settle. cbn.
        destruct (settles w3 (trace w3) e Cleanup); cbn; (eexists; split; [reflexivity|]); cbn;
          rewrite <- ?app_assoc; by split_and!.
      * eexists. split; [reflexivity|]. cbn. rewrite <- ?app_assoc. by split_and!.
    + intros ok.
      destruct (run_removeSession_lines sessionId w l Hget) as (ok' & Hrun).
      cbn zeta in Hrun. fold e in Hrun. fold ok in Hrun.
      exists ok'. cbn zeta. split; [exact Hrun|]. rewrite Hrun. cbn [snd removed trace].
      unfold calls at 1. rewrite omap_app. fold (calls Cleanup (trace w)).
      destruct ok; cbn.
      * by rewrite decide_False, (decide_True (P:=Cleanup = Cleanup)).
      * by rewrite !decide_False.
  - intros expiredSessions.
    destruct (run_sweep_lines w) as (evss & Hrun & Hall); [by destruct Hwf|].
    exists evss. cbn zeta in Hrun. fold expiredSessions in Hrun, Hall.
    by rewrite Hrun.
  - destruct (run_shutdown_lines w Hwf) as (evss & Hrun & Hall).
    exists evss. rewrite Hrun. by cbn.
Qed.

(** A removal that was suspended while the session was removed by another
    call and the id created again deletes the entry of the newer session,
    whose environment is then neither terminated nor cleaned up. *)
Lemma removal_unregisters_a_newer_session :
  let w0 := one_session (ticking 1) all_well in
  let created :=
    exec [Incoming (CallRemoveSession "s1"); Incoming (CallRemoveSession "s1");
          Turn 0; Turn 0; Incoming (CallGetOrCreateSession "s1"); Turn 2; Turn 2] [] w0 in
  let ended := exec [Turn 1; Turn 1] created.1 created.2 in
  sessions w0 = [("s1", 0%nat)] ∧
  sessions created.2 = [("s1", 1%nat)] ∧ environment (heap created.2 1%nat) = 1%nat ∧
  ended.1 = [Done (Fulfilled (VBool true)); Done (Fulfilled (VBool true));
             Done (Fulfilled (VSession 1%nat))] ∧
  sessions ended.2 = [] ∧
  calls Terminate (trace ended.2) = [0%nat; 0%nat] ∧
  calls Cleanup (trace ended.2) = [0%nat; 0%nat].
Proof. vm_compute. by split_and!. Qed.

(** C5, on the code: the manager of index.ts holds two sessions that have
    been idle for two minutes, the timeout being one.  First, the timer
    starts a pass, and manualCleanup is called before the first teardown of
    that pass has settled: both passes select both sessions; the pass of the
    timer removes them and returns 2; the manual pass, which finds the
    registry empty at each of its later turns, terminates and cleans up the
    environment of "s1" a second time and returns 2 as well, so 4 removals
    are reported of 2 sessions.  Second, a caller looks "s2" up while a pass
    is suspended on the teardown of "s1": the lookup succeeds and refreshes
    the session, which isSessionExpired no longer reports, and the pass
    removes it all the same.  The property of C5 (a pass removes exactly the
    sessions idle for the timeout, keeps those accessed within it, and
    returns the count removed) does not hold of these runs. *)
Theorem sweep_acts_on_a_stale_selection :
  let w0 := two_sessions two_minutes_later all_well in
  let first := exec [Fire 0%nat; Incoming CallManualCleanup;
                     Turn 0; Turn 0; Turn 0; Turn 0; Turn 0; Turn 0] [] w0 in
  let second := exec [Turn 1; Turn 1; Turn 1; Turn 1; Turn 1] first.1 first.2 in
  let looked_up := exec [Fire 0%nat; Incoming (CallGetSession "s2")] [] w0 in
  let swept := exec [Turn 0; Turn 0; Turn 0; Turn 0; Turn 0; Turn 0]
                 looked_up.1 looked_up.2 in
  sessions w0 = [("s1", 0%nat); ("s2", 1%nat)] ∧ timers w0 = [0%nat] ∧
  sessionTimeout w0 = 60000 ∧
  match first.1 with
  | [Done r; Waiting e op _] =>
      r = Fulfilled (VNumber 2) ∧ e = 0%nat ∧ op = Terminate
  | _ => False
  end ∧
  sessions first.2 = [] ∧
  second.1 = [Done (Fulfilled (VNumber 2)); Done (Fulfilled (VNumber 2))] ∧
  sessions second.2 = [] ∧
  calls Terminate (trace second.2) = [0%nat; 0%nat; 1%nat] ∧
  calls Cleanup (trace second.2) = [0%nat; 1%nat; 0%nat] ∧
  match looked_up.1 with
  | [Waiting e op _; Done r] =>
      e = 0%nat ∧ op = Terminate ∧ r = Fulfilled (VSession 1%nat)
  | _ => False
  end ∧
  lastAccessedAt (heap looked_up.2 1%nat) = 120007 ∧
  (isSessionExpired 1%nat looked_up.2).1 = false ∧
  swept.1 = [Done (Fulfilled (VNumber 2)); Done (Fulfilled (VSession 1%nat))] ∧
  sessions swept.2 = [] ∧
  calls Terminate (trace swept.2) = [0%nat; 1%nat] ∧
  (isSessionExpired 1%nat swept.2).1 = false.
Proof. vm_compute. by split_and!. Qed.

(** ** Shutdown among other calls *)

Lemma shutdown_stops_the_timer v w :
  stable v w → wp stable shutdown (λ t' _ w', stable t' w') (true, v.2) w.
Proof.
  intros H. unfold shutdown. cbn. apply wp_then.
  fold (remove_each (JsMap.keys (sessions (stopCleanupInterval
          (print (Log "Shutting down SessionManager...") w)).2))).
  eapply wp_mono; [|apply remove_each_stable].
  - intros v' [[]|err] w'; cbn; [|done]. apply stable_print.
  - by apply (stable_stopCleanupInterval v), stable_print.
Qed.

Lemma act_shutdown_stable v pool w :
  stable v w → orderly stable pool →
  stable (true, v.2) (act (Incoming CallShutdown) pool w).2 ∧
  orderly stable (act (Incoming CallShutdown) pool w).1.
Proof.
  intros Hw Hpool. unfold act, spawn. cbn [serve].
  destruct (advance_keeps stable ((λ _, VUndefined) <$> shutdown) (true, v.2) w)
    as [? ?].
  { apply wp_then. eapply wp_mono; [|by apply shutdown_stops_the_timer].
    by intros t' [a|err] w'. }
  destruct (advance _ w) as [task w']. cbn [fst snd] in *. split; [done|].
  apply Forall_app. split; [done|]. by constructor.
Qed.

(** C7 (as amended): in any state the manager can reach, a shutdown()
    that runs without interruption leaves the registry empty, so the active
    session count is 0; every session that was present has been torn down,
    terminate attempted on each and cleanup on each whose terminate
    succeeded; and the interval timer is cleared.  Whatever else runs,
    shutdown completes without throwing, within three turns for each
    session there was; and from the call of shutdown on, the timer is
    cleared and stays so, and a tick starts nothing. *)
Theorem shutdown_removes_everything minutes clk out schedule :
  let s := exec schedule [] (new_SessionManager minutes (boot clk out)).2 in
  let w := s.2 in
  (∃ evss w',
     run shutdown w = (Fulfilled (), w') ∧
     getActiveSessionCount w' = (0%nat, w') ∧
     sessions w' = [] ∧
     trace w' = trace w ++ concat evss ∧
     Forall2 (λ k evs, ∃ l, JsMap.get k (sessions w) = Some l ∧
                            teardown_events (environment (heap w l)) evs)
       (JsMap.keys (sessions w)) evss ∧
     cleanupInterval w' = None ∧ timers w' = [] ∧
     ∀ h pool, act (Fire h) pool w' = (pool, w')) ∧
  always_ends (3 * JsMap.size (sessions w)) (λ r _, r = Fulfilled ()) shutdown w ∧
  ∀ schedule',
    let w' := (exec (Incoming CallShutdown :: schedule') s.1 w).2 in
    cleanupInterval w' = None ∧ timers w' = [] ∧
    ∀ h pool, act (Fire h) pool w' = (pool, w').
Proof.
  intros s w.
  destruct (exec_stable schedule [] _ _ (stable_new_SessionManager minutes clk out))
    as [Hst Hpool]; [constructor|].
  fold s in Hst, Hpool. fold w in Hst. split_and!.
  - destruct Hst as (Hwf & _).
    destruct (run_shutdown w Hwf) as (evss & lines & Hrun & Hall).
    exists evss. eexists. split; [exact Hrun|]. by split_and!.
  - apply wp_within_ends. eapply wp_within_mono; [| |apply shutdown_within]; [done|].
    unfold JsMap.size, JsMap.keys. rewrite length_fmap. lia.
  - intros schedule' w'. subst w'. cbn [exec].
    destruct (act_shutdown_stable _ s.1 w Hst Hpool) as [Hst1 Hpool1].
    destruct (act (Incoming CallShutdown) s.1 w) as [pool1 w1]. cbn [fst snd] in *.
    destruct (exec_stable schedule' pool1 _ w1 Hst1 Hpool1)
      as [([_ _ Htm] & _ & _ & Hn & _) _].
    specialize (Hn eq_refl). rewrite Hn in Htm.
    split_and!; [done|done|]. intros h pool. unfold act. rewrite Htm.
    by rewrite bool_decide_eq_false_2 by apply not_elem_of_nil.
Qed.

(** A session that another caller creates while shutdown is suspended on
    a teardown is still registered when shutdown has completed. *)
Lemma session_created_during_shutdown_stays :
  let w0 := one_session (ticking 1) all_well in
  let ended :=
    exec [Incoming CallShutdown; Incoming (CallGetOrCreateSession "s2");
          Turn 1; Turn 1; Turn 0; Turn 0; Turn 0] [] w0 in
  ended.1 = [Done (Fulfilled VUndefined); Done (Fulfilled (VSession 1%nat))] ∧
  sessions ended.2 = [("s2", 1%nat)] ∧
  (getActiveSessionCount ended.2).1 = 1%nat ∧
  cleanupInterval ended.2 = None ∧ timers ended.2 = [].
Proof. vm_compute. by split_and!. Qed.

(** ** The handler of POST /exec *)

Lemma or_default_truthy message : truthy (or_default message) = true.
Proof. unfold or_default. by destruct (truthy message) eqn:E. Qed.

Lemma run_try_catch {A} (p : Async A) handler : ∀ w,
  run (try_catch p handler) w =
  match run p w with
  | (Fulfilled a, w') => (Fulfilled a, w')
  | (Rejected err, w') => run (handler err) w'
  end.
Proof.
  induction p as [a|err|X m k IH|e op k IH|k IH]; intros w; cbn; auto.
  destruct (m w). apply IH.
Qed.

Lemma run_exec_route {R : Type} thrown code files sessionId w :
  sessionId ≠ "" →
  run (exec_route (R := R) thrown code files sessionId) w =
  match run (getOrCreateSession sessionId) w with
  | (Fulfilled session, w') =>
      (Fulfilled (inr (mkRunCode (environment (heap w' session)) code (default [] files))),
       w')
  | (Rejected error, w') =>
      (Fulfilled (inl (catch_block (thrown_value thrown error))), w')
  end.
Proof.
  intros Hid. unfold exec_route. rewrite decide_False by done.
  rewrite run_try_catch, run_bind, run_await.
  by destruct (run (getOrCreateSession sessionId) w) as [[session|err] w'].
Qed.

Lemma run_getOrCreateSession_fulfilled sessionId w session w1 :
  run (getOrCreateSession sessionId) w = (Fulfilled session, w1) →
  JsMap.get sessionId (sessions w1) = Some session ∧
  match JsMap.get sessionId (sessions w) with
  | Some l =>
      session = l ∧ w1 = (getSession sessionId w).2 ∧
      environment (heap w1 session) = environment (heap w l)
  | None =>
      environment (heap w1 session) = environments w ∧
      environments w1 = S (environments w) ∧
      ∀ k, k ≠ sessionId → JsMap.get k (sessions w1) = JsMap.get k (sessions w)
  end.
Proof.
  destruct (JsMap.get sessionId (sessions w)) as [l|] eqn:Hget.
  - destruct (run_getOrCreateSession_hit sessionId w l Hget) as (_ & _ & -> & _).
    intros [= <- <-]. rewrite getSession_eq, Hget. cbn. split_and!; try done.
    unfold store. by rewrite decide_True.
  - destruct (settles w (trace w ++ [EvNew (environments w); EvCall (environments w) Init])
                (environments w) Init) eqn:Hok.
    + destruct (run_getOrCreateSession_created sessionId w Hget Hok)
        as (w' & -> & Hs & Hh & _ & He & _).
      intros [= <- <-]. rewrite Hs, Hh. split_and!.
      * rewrite JsMapFacts.get_app, Hget. cbn. by rewrite decide_True.
      * unfold store. by rewrite decide_True.
      * done.
      * intros k Hk. rewrite JsMapFacts.get_app.
        destruct (JsMap.get k (sessions w)); [done|]. cbn. by rewrite decide_False.
    + destruct (run_getOrCreateSession_miss sessionId w Hget) as (w' & -> & _).
      by rewrite Hok.
Qed.

(** X15: what POST /exec does before it runs the code, whatever else runs
    while it is suspended.  With an empty sessionId it answers with a
    "validation" failure at once and leaves the manager alone.  Otherwise
    it ends within three turns, and either reaches runCode, with the code
    and the files of the request (no files when the body has none); or the
    session was absent when the request arrived and the init of the
    environment it constructed failed: it then answers with an "execution"
    failure whose message is the message of what init threw, or the default
    text when that is missing or falsy, and never an empty one; when init
    threw null or undefined, reading its message throws in the catch block
    and the handler fails.  It never fails with an error of the manager.
    The outcome of runCode goes into the reply in the same way. *)
Theorem exec_reaches_runCode_or_reports {R : Type} thrown code files sessionId w :
  (if decide (sessionId = "")
   then
     advance (exec_route (R := R) thrown code files sessionId) w =
       (Done (Fulfilled (inl (Respond (Failure "validation"
          (JsString "sessionId query parameter is required"))))), w)
   else
     always_ends 3
       (λ r _,
          match r with
          | Fulfilled (inr call) =>
              code_arg call = code ∧ files_arg call = default [] files
          | Fulfilled (inl (Respond (Failure type message))) =>
              type = "execution" ∧ truthy message = true ∧
              JsMap.get sessionId (sessions w) = None ∧
              ∃ m, thrown (environments w) Init = ThrownWith m ∧
                   message = or_default m
          | Fulfilled (inl TypeError) =>
              JsMap.get sessionId (sessions w) = None ∧
              thrown (environments w) Init = ThrownNullish
          | Fulfilled (inl (Respond (Success _))) => False
          | Rejected _ => False
          end)
       (exec_route (R := R) thrown code files sessionId) w) ∧
  ∀ outcome : R + Thrown,
    match outcome with
    | inl result => exec_end outcome = Respond (Success result)
    | inr ThrownNullish => exec_end outcome = TypeError
    | inr (ThrownWith m) =>
        ∃ message, exec_end outcome = Respond (Failure "execution" message) ∧
                   truthy message = true ∧ message = or_default m ∧
                   (truthy m = true → message = m)
    end.
Proof.
  split.
  - unfold exec_route. case_decide as Hid; [done|].
    apply wp_within_ends. unfold getOrCreateSession. cbn. rewrite getSession_eq.
    destruct (JsMap.get sessionId (sessions w)) as [l|] eqn:Hget; cbn.
    + by intros w1.
    + unfold createSession. cbn.
      rewrite (proj2 (JsMapFacts.has_false _ _) Hget). cbn.
      intros w1 [|]; cbn; intros w2; cbn; intros w3; cbn; [done|].
      destruct (thrown (environments w) Init) as [|m] eqn:Hthrown; cbn; [done|].
      split_and!; [done|apply or_default_truthy|done|by exists m].
  - intros [result|[|m]]; cbn; [done|done|].
    eexists. split_and!; [done|apply or_default_truthy|done|].
    unfold or_default. by intros ->.
Qed.

(** X16: a request whose sessionId is registered when it arrives
    constructs and calls no environment: it refreshes the session, is
    suspended once, and then reaches runCode on the environment of the
    Session object it found, whatever ran in between.  When requests run
    one after the other with nothing in between: a request that reaches
    runCode does so on the environment of the session then registered under
    its sessionId; the next request with that sessionId reaches runCode on
    the same environment and leaves the registry and the environments as
    they are; and a request with another sessionId, both sessions being
    new, gets another environment. *)
Theorem requests_of_one_session_share_the_environment {R : Type}
    thrown code files sessionId w :
  sessionId ≠ "" →
  (∀ l, JsMap.get sessionId (sessions w) = Some l →
     ∃ k,
       advance (exec_route (R := R) thrown code files sessionId) w =
         (Ready k, (getSession sessionId w).2) ∧
       ∀ w1, resume (Ready k) w1 =
               (Done (Fulfilled (inr (mkRunCode (environment (heap w1 l)) code
                                        (default [] files)))), w1)) ∧
  (∀ call1 w1,
     run (exec_route (R := R) thrown code files sessionId) w
     = (Fulfilled (inr call1), w1) →
     (∃ session, JsMap.get sessionId (sessions w1) = Some session ∧
                 on_environment call1 = environment (heap w1 session)) ∧
     (∀ code2 files2,
        ∃ w2, run (exec_route (R := R) thrown code2 files2 sessionId) w1 =
                (Fulfilled (inr (mkRunCode (on_environment call1) code2
                                   (default [] files2))), w2) ∧
              sessions w2 = sessions w1 ∧ environments w2 = environments w1 ∧
              trace w2 = trace w1) ∧
     (∀ other code2 files2 call2 w2,
        other ≠ "" → other ≠ sessionId →
        JsMap.get sessionId (sessions w) = None →
        JsMap.get other (sessions w) = None →
        run (exec_route (R := R) thrown code2 files2 other) w1
        = (Fulfilled (inr call2), w2) →
        on_environment call2 ≠ on_environment call1)).
Proof.
  intros Hid. split.
  - intros l Hget. unfold exec_route. rewrite decide_False by done.
    unfold getOrCreateSession. cbn. rewrite getSession_eq, Hget. cbn.
    eexists. split; [reflexivity|]. by intros w1.
  - intros call1 w1. rewrite run_exec_route by done.
    destruct (run (getOrCreateSession sessionId) w) as [[session|err] w1'] eqn:Hrun;
      [|done].
    intros [= <- <-]. cbn [on_environment].
    apply run_getOrCreateSession_fulfilled in Hrun as [Hget1 Hnew]. split_and!.
    + by exists session.
    + intros code2 files2. rewrite run_exec_route by done.
      destruct (run_getOrCreateSession_hit sessionId w1' session Hget1)
        as (_ & _ & -> & _).
      rewrite getSession_eq, Hget1. cbn. unfold store at 1.
      rewrite decide_True by done. cbn. by eexists.
    + intros other code2 files2 call2 w2 Hoid Hother Hnone Hnone'.
      rewrite Hnone in Hnew. destruct Hnew as (He & Hn & Hrest).
      rewrite run_exec_route by done.
      destruct (run (getOrCreateSession other) w1') as [[session2|err] w2'] eqn:Hrun2;
        [|done].
      intros [= <- <-]. cbn [on_environment].
      apply run_getOrCreateSession_fulfilled in Hrun2 as [_ Hnew2].
      rewrite Hrest, Hnone' in Hnew2 by done. destruct Hnew2 as (He2 & _).
      rewrite He, He2, Hn. lia.
Qed.

(** ** These statements on the scenarios *)

Lemma teardown_stops_at_the_first_failure_witness :
  let w := one_session (ticking 1) (failing Terminate) in
  wf w ∧ JsMap.get "s1" (sessions w) = Some 0%nat ∧
  ∃ k1 w0 w2,
    advance (removeSession "s1") w = (Waiting 0%nat Terminate k1, w0) ∧
    environment (heap w0 0%nat) = 0%nat ∧
    resume (Waiting 0%nat Terminate k1) w0 = (Done (Fulfilled true), w2) ∧
    trace w2 = trace w0 ++ [EvSettle 0%nat Terminate false] ∧
    console w2 = console w0 ++ [ErrorLine "Error cleaning up session s1:"
                                  (EnvFailure 0%nat Terminate);
                                Log "Session removed: s1"].
Proof.
  intros w. assert (Hwf : wf w) by (subst w; wf_by_computation).
  assert (Hget : JsMap.get "s1" (sessions w) = Some 0%nat) by reflexivity.
  split_and!; [exact Hwf|exact Hget|].
  destruct (teardown_stops_at_the_first_failure w Hwf) as (Hrm & _ & _).
  destruct (Hrm "s1" 0%nat Hget) as [(k1 & w0 & Hadv & _ & _ & _ & Hstep) _].
  assert (Hw0 : w0 = (advance (removeSession "s1") w).2) by (by rewrite Hadv).
  assert (He : environment (heap w0 0%nat) = environment (heap w 0%nat))
    by (rewrite Hw0; reflexivity).
  assert (Hfail : settles w0 (trace w0) (environment (heap w 0%nat)) Terminate = false)
    by (rewrite Hw0; reflexivity).
  specialize (Hstep w0 He). rewrite Hfail in Hstep.
  destruct Hstep as (w2 & Hres & Htr & Hcon & _).
  exists k1, w0, w2. split_and!; [exact Hadv|exact He|exact Hres|exact Htr|exact Hcon].
Defined.

Lemma requests_of_one_session_share_the_environment_witness :
  let w := one_session (ticking 1) all_well in
  "s1" ≠ "" ∧ JsMap.get "s1" (sessions w) = Some 0%nat ∧
  ∃ k, advance (exec_route (R := ()) (λ _ _, ThrownNullish) "1 + 1" None "s1") w =
         (Ready k, (getSession "s1" w).2) ∧
       resume (Ready k) (getSession "s1" w).2 =
         (Done (Fulfilled (inr (mkRunCode 0%nat "1 + 1" []))), (getSession "s1" w).2).
Proof.
  intros w. assert (Hid : "s1" ≠ "") by (intros [=]).
  assert (Hget : JsMap.get "s1" (sessions w) = Some 0%nat) by reflexivity.
  split_and!; [exact Hid|exact Hget|].
  destruct (requests_of_one_session_share_the_environment (R := ())
              (λ _ _, ThrownNullish) "1 + 1" None "s1" w Hid) as [Hhit _].
  destruct (Hhit 0%nat Hget) as (k & Hadv & Hres).
  exists k. split; [exact Hadv|]. exact (Hres (getSession "s1" w).2).
Defined.
